(** * isambard: create_loop_database

    A shallow embedding of [src/isambard/modelling/create_loop_database.py]:
    the chunked, fault-tolerant loop that gathers the loops of a list of PDB
    files and adds them to the loop database, with the statistics it keeps
    and the calls it makes to the session and to the console. *)

From Stdlib Require Import Ascii.
From stdpp Require Import base numbers option list strings pretty gmap.

(** ** The Python primitives the module uses *)

Module Py.

(** [range(start, stop, step)] for a positive [step]: CPython computes the
    number of elements as [(stop - start - 1) / step + 1] when
    [start < stop], and none otherwise. *)
Definition range_length (start stop step : nat) : nat :=
  if decide (start < stop) then S ((stop - start - 1) / step) else 0.

Definition range (start stop step : nat) : list nat :=
  (λ k, start + k * step) <$> seq 0 (range_length start stop step).

(** [l[i:j]] for indices that are not negative: both ends are clamped to
    the length of the list. *)
Definition slice {A} (l : list A) (i j : nat) : list A :=
  take (j - i) (drop i l).

(** [itertools.chain] applied to the unpacked [lists]. *)
Definition chain {A} (lists : list (list A)) : list A := concat lists.

(** [divmod(a, b)] on naturals. *)
Definition divmod (a b : nat) : nat * nat := (a / b, a mod b).

End Py.

(** ** Chunking

    [[data_file_paths[i:i + size] for i in range(0, len(data_file_paths), size)]];
    the module writes the literal 100 for [size]. *)

Definition chunks_of {A} (size : nat) (l : list A) : list (list A) :=
  (λ i, Py.slice l i (i + size)) <$> Py.range 0 (length l) size.

Definition data_chunks (data_file_paths : list string) : list (list string) :=
  (λ i, Py.slice data_file_paths i (i + 100))
    <$> Py.range 0 (length data_file_paths) 100.

(** ** [multiprocessing.Pool.map]

    The standard library's pool, as far as [pool.map(func, iterable)]
    goes: the iterable is cut into task batches, the workers complete the
    batches in an order the program does not control, every result is filed
    in the result list at the place of its batch, and the list is handed
    back once no batch is left.  The order of completion is the scheduler's
    choice: [pick] says which of the outstanding tasks completes next. *)

Module Pool.
Section map.
Context {A B : Type}.

(** [Pool._map_async]: the batch size when none is given. *)
Definition chunksize (processes n : nat) : nat :=
  if decide (n = 0) then 0
  else
    let '(chunksize, extra) := Py.divmod n (processes * 4) in
    if decide (extra = 0) then chunksize else chunksize + 1.

(** [Pool._get_tasks] with the job index each batch is sent out with. *)
Definition get_tasks (size : nat) (iterable : list A) : list (nat * list A) :=
  imap (λ i x, (i, x)) (chunks_of size iterable).

(** [MapResult._set]: [value[i*chunksize:(i+1)*chunksize] = result]. *)
Definition _set (size i : nat) (result : list (option B))
    (value : list (option B)) : list (option B) :=
  take (i * size) value ++ result ++ drop ((i + 1) * size) value.

(** The workers: while tasks are left, one of the outstanding ones
    completes and its results are filed. *)
Fixpoint complete (pick : nat → nat) (func : A → B) (size number_left : nat)
    (outstanding : list (nat * list A)) (value : list (option B))
    : list (option B) :=
  match number_left with
  | 0 => value
  | S number_left =>
      match outstanding !! (pick number_left mod length outstanding) with
      | Some (i, x) =>
          complete pick func size number_left
            (delete (pick number_left mod length outstanding) outstanding)
            (_set size i (Some ∘ func <$> x) value)
      | None => value
      end
  end.

(** [pool.map(func, iterable)]: [None] stands for a result list that is
    handed back with a place never filed. *)
Definition map (pick : nat → nat) (processes : nat) (func : A → B)
    (iterable : list A) : option (list B) :=
  let size := chunksize processes (length iterable) in
  let task_batches := get_tasks size iterable in
  let value := replicate (length iterable) None in
  mapM id (complete pick func size (length task_batches) task_batches value).

End map.
End Pool.

(** ** The data of the module *)

(** What a call gives back: a value, or an exception raised.  [Exception]
    is the class the [except Exception] clause catches. *)
Inductive outcome (A Exception : Type) : Type :=
  | Return (a : A)
  | Raise (e : Exception).
Arguments Return {A Exception} a.
Arguments Raise {A Exception} e.

(** [Union[dict, Tuple[str, Exception]]]: what [fault_tolerant_gather]
    lists, a loop as a [dict] of its columns or the pair of a path and the
    exception its file raised.  [isinstance(loop, tuple)] tells the two
    apart. *)
Inductive item (dict Exception : Type) : Type :=
  | IsDict (loop : dict)
  | IsTuple (path : string) (ex : Exception).
Arguments IsDict {dict Exception} loop.
Arguments IsTuple {dict Exception} path ex.

(** The [db_stats] dictionary with its four keys. *)
Record stats : Type := Stats {
  total_pdbs : nat;
  succeeded : nat;
  failed : nat;
  total_loops : nat;
}.

(** The calls the module makes on the database and the console, in the
    order it makes them.  [Loops] is the row built from the keys of a loop. *)
Inductive call (dict : Type) : Type :=
  | create_all (output_path : string)
  | map_gather (paths : list string)
  | print (line : string)
  | session_add (Loops : dict)
  | session_commit.
Arguments create_all {dict} output_path.
Arguments map_gather {dict} paths.
Arguments print {dict} line.
Arguments session_add {dict} Loops.
Arguments session_commit {dict}.

Record state (dict : Type) : Type := State {
  db_stats : stats;
  calls : list (call dict);
}.
Arguments State {dict} db_stats calls.
Arguments db_stats {dict} s.
Arguments calls {dict} s.

Definition update_stats {dict} (f : stats → stats) (s : state dict) : state dict :=
  State (f (db_stats s)) (calls s).

Definition perform {dict} (c : call dict) (s : state dict) : state dict :=
  State (db_stats s) (calls s ++ [c]).

Definition add_total_pdbs (n : nat) (d : stats) : stats :=
  Stats (total_pdbs d + n) (succeeded d) (failed d) (total_loops d).
Definition add_succeeded (n : nat) (d : stats) : stats :=
  Stats (total_pdbs d) (succeeded d + n) (failed d) (total_loops d).
Definition add_failed (n : nat) (d : stats) : stats :=
  Stats (total_pdbs d) (succeeded d) (failed d + n) (total_loops d).
Definition add_total_loops (n : nat) (d : stats) : stats :=
  Stats (total_pdbs d) (succeeded d) (failed d) (total_loops d + n).

(** The newline character of the format strings. *)
Definition nl : string := String "010"%char EmptyString.

(** ** The module, when nothing fails

    The run in which [gather_loops_from_pdb] raises nothing but
    [Exception]s, the constructor of the rows gives the loop itself, no
    call on the database or the console raises and the pool hands back
    what its workers return.  The modules [Raising] and [Failing] further
    down do without these; [run_where_nothing_fails] has the run of this
    section as the run of [Failing] in such a world. *)

Section create_loop_database.
Context {dict Exception : Type}.

(** [str(ex)] *)
Context (str : Exception → string).

(** [extract_loop_data.gather_loops_from_pdb], which the module imports:
    the loops of one PDB file, or the exception it raises on it. *)
Context (gather_loops_from_pdb : string → outcome (list dict) Exception).

(** The scheduler of the pool made for the k-th chunk. *)
Context (pick : nat → nat → nat).

Definition fault_tolerant_gather (path : string) : list (item dict Exception) :=
  match gather_loops_from_pdb path with
  | Return loops => IsDict <$> loops
  | Raise e => [IsTuple path e]
  end.

(** The two branches of [if processes > 1]. *)
Definition loop_lists (k : nat) (processes : Z) (paths : list string)
    : option (list (list (item dict Exception))) :=
  if decide (1 < processes)%Z
  then Pool.map (pick k) (Z.to_nat processes) fault_tolerant_gather paths
  else Some (fault_tolerant_gather <$> paths).

Definition failure_notice (verbose : bool) (path : string) (ex : Exception)
    : string :=
  if verbose
  then "Failed to process " +:+ path +:+ ":" +:+ nl +:+ " " +:+ str ex +:+ nl
  else "Failed to process " +:+ path.

(** The body of [for loop in itertools.chain(...)]. *)
Definition loop_body (verbose : bool) (s : state dict)
    (loop : item dict Exception) : state dict :=
  let s := update_stats (add_total_loops 1) s in
  match loop with
  | IsTuple path ex =>
      let s := update_stats (add_failed 1) s in
      perform (print (failure_notice verbose path ex)) s
  | IsDict loop =>
      let s := perform (session_add loop) s in
      update_stats (add_succeeded 1) s
  end.

(** The body of [for paths in data_chunks]; [k] counts the chunks. *)
Definition chunk_body (processes : Z) (verbose : bool) (k : nat)
    (s : state dict) (paths : list string) : option (state dict) :=
  lists ← loop_lists k processes paths;
  let s := perform (map_gather paths) s in
  let s := update_stats (add_total_pdbs (length paths)) s in
  let s := foldl (loop_body verbose) s (Py.chain lists) in
  Some (perform session_commit s).

Fixpoint for_chunks (processes : Z) (verbose : bool) (k : nat)
    (s : state dict) (chunks : list (list string)) : option (state dict) :=
  match chunks with
  | [] => Some s
  | paths :: chunks =>
      s ← chunk_body processes verbose k s paths;
      for_chunks processes verbose (S k) s chunks
  end.

Definition summary (d : stats) : string :=
  "Finished processing " +:+ pretty (total_pdbs d) +:+ " PDB files:" +:+ nl
  +:+ pretty (succeeded d) +:+ " succeeded, " +:+ pretty (failed d)
  +:+ " failed, " +:+ pretty (total_loops d) +:+ " added to database.".

(** [None] stands for a run that does not reach its [return]. *)
Definition process_pdb_files (data_file_paths : list string)
    (output_path : string) (processes : Z) (verbose : bool)
    : option (state dict) :=
  let s := State (Stats 0 0 0 0) [create_all output_path] in
  s ← for_chunks processes verbose 0 s (data_chunks data_file_paths);
  Some (perform (print (summary (db_stats s))) s).

End create_loop_database.

(** ** What a run leaves behind, read off its calls *)

Section views.
Context {dict : Type}.
Implicit Types (cs : list (call dict)).

(** The lines on the console. *)
Definition printed cs : list string :=
  omap (λ c, match c with print line => Some line | _ => None end) cs.

(** The chunks handed to the workers. *)
Definition mapped cs : list (list string) :=
  omap (λ c, match c with map_gather paths => Some paths | _ => None end) cs.

(** The rows staged with [session.add]. *)
Definition added cs : list dict :=
  omap (λ c, match c with session_add r => Some r | _ => None end) cs.

(** The number of [session.commit()]. *)
Definition commits cs : nat :=
  length (omap (λ c, match c with session_commit => Some () | _ => None end) cs).

(** The session: the rows staged since the last commit and the rows in
    the database. *)
Definition session_step (db : list dict * list dict) (c : call dict)
    : list dict * list dict :=
  match c with
  | session_add r => (db.1 ++ [r], db.2)
  | session_commit => ([], db.2 ++ db.1)
  | _ => db
  end.

Definition persisted cs : list dict := (foldl session_step ([], []) cs).2.

End views.

(** ** Notions the properties are stated with *)

Section reading.
Context {dict Exception : Type}.
Context (str : Exception → string).
Context (gather_loops_from_pdb : string → outcome (list dict) Exception).

(** The loops of the files that [gather_loops_from_pdb] returns on, file
    by file in the order of the paths. *)
Definition gathered (paths : list string) : list dict :=
  paths ≫= λ path,
    match gather_loops_from_pdb path with
    | Return loops => loops
    | Raise _ => []
    end.

(** The files that [gather_loops_from_pdb] raises on, each with what it
    raised, in the order of the paths. *)
Definition raising (paths : list string) : list (string * Exception) :=
  omap (λ path,
    match gather_loops_from_pdb path with
    | Return _ => None
    | Raise e => Some (path, e)
    end) paths.

(** The statistics a run over [paths] ends with. *)
Definition final_stats (paths : list string) : stats :=
  Stats (length paths) (length (gathered paths)) (length (raising paths))
    (length (gathered paths) + length (raising paths)).

(** The dicts and the tuples of a list of items. *)
Definition dicts (items : list (item dict Exception)) : list dict :=
  omap (λ i, match i with IsDict loop => Some loop | _ => None end) items.

Definition tuples (items : list (item dict Exception))
    : list (string * Exception) :=
  omap (λ i, match i with IsTuple path ex => Some (path, ex) | _ => None end)
    items.

(** The notice printed for a file and what it raised. *)
Definition notice_of (verbose : bool) (pe : string * Exception) : string :=
  failure_notice str verbose pe.1 pe.2.

(** The one call the loop body makes for an item. *)
Definition item_call (verbose : bool) (i : item dict Exception) : call dict :=
  match i with
  | IsDict loop => session_add loop
  | IsTuple path ex => print (failure_notice str verbose path ex)
  end.

(** The calls of one turn of the loop over the chunks. *)
Definition chunk_calls (verbose : bool) (paths : list string)
    : list (call dict) :=
  map_gather paths
    :: (item_call verbose
          <$> Py.chain (fault_tolerant_gather gather_loops_from_pdb <$> paths))
    ++ [session_commit].

End reading.

(** ** Extractors to run the module on *)

Module Sample.

(** Every file has the two loops 1 and 2. *)
Definition two_loops (path : string) : outcome (list nat) string :=
  Return [1; 2].

(** Every file is malformed. *)
Definition malformed (path : string) : outcome (list nat) string :=
  Raise "malformed".

(** [bad.pdb] is malformed, [empty.pdb] has no loop, every other file
    has three. *)
Definition mixed (path : string) : outcome (list nat) string :=
  if decide (path = "bad.pdb") then Raise "malformed"
  else if decide (path = "empty.pdb") then Return []
  else Return [1; 2; 3].

(** Every file has one loop, named after the file. *)
Definition one_loop (path : string) : outcome (list string) string :=
  Return [path].

(** 250 paths, [0.pdb] to [249.pdb]. *)
Definition paths_250 : list string := (λ i, pretty i +:+ ".pdb") <$> seq 0 250.

(** A scheduler that lets the tasks complete in some scrambled order. *)
Definition scrambled (k number_left : nat) : nat := 7 * number_left + k + 3.

End Sample.

(** ** The [Loops] class

    The mapped class of the module: its table name, its columns and its
    [__repr__].  Its constructor is the one a declarative base gives a
    class: every keyword has to name an attribute of the class and is set
    on the new row. *)

(** What reading an attribute of a row gives: the value it was set to,
    [None] for a column that was not set, or what the class has under the
    name. *)
Inductive attribute (value : Type) : Type :=
  | SetTo (v : value)
  | PyNone
  | OfClass (name : string).
Arguments SetTo {value} v.
Arguments PyNone {value}.
Arguments OfClass {value} name.

Module Loops.

Definition __tablename__ : string := "loops".

(** The columns, in the order of the class body. *)
Definition columns : list string :=
  ["id"; "pdb_code"; "resolution"; "loop_type"; "start_res"; "end_res";
   "chain"; "sequence"; "length"; "end_to_end_distance"; "entering_angle";
   "exiting_angle"; "dihedral"; "coordinates"].

Section class.
Context {value : Type}.

(** The names the class has from [BASE] and from [object]. *)
Context (inherited : list string).

(** How [str.format] writes an attribute. *)
Context (format : attribute value → string).

(** [hasattr(Loops, k)]: the names of the class body and the inherited
    ones. *)
Definition hasattr (k : string) : bool :=
  bool_decide (k ∈ "__tablename__" :: "__repr__" :: columns ++ inherited).

(** The constructor, keyword after keyword: a keyword that names no
    attribute of the class raises a [TypeError] that names it. *)
Fixpoint __init__ (kwargs : list (string * value)) (self : gmap string value)
    : outcome (gmap string value) string :=
  match kwargs with
  | [] => Return self
  | (k, v) :: kwargs =>
      if hasattr k then __init__ kwargs (<[k:=v]> self) else Raise k
  end.

(** [Loops] called with the keywords, from a row with nothing set. *)
Definition new (kwargs : list (string * value))
    : outcome (gmap string value) string :=
  __init__ kwargs ∅.

(** [self.name]; the exception is the [AttributeError], with the name. *)
Definition getattr (self : gmap string value) (name : string)
    : outcome (attribute value) string :=
  match self !! name with
  | Some v => Return (SetTo v)
  | None =>
      if bool_decide (name ∈ columns) then Return PyNone
      else if hasattr name then Return (OfClass name)
      else Raise name
  end.

Definition __repr__ (self : gmap string value) : outcome string string :=
  match getattr self "pdb" with
  | Raise e => Raise e
  | Return pdb =>
      match getattr self "loop_type" with
      | Raise e => Raise e
      | Return loop_type =>
          match getattr self "sequence" with
          | Raise e => Raise e
          | Return sequence =>
              Return ("<Loops(pdb='" +:+ format pdb +:+ "', loop_type='"
                      +:+ format loop_type +:+ "', sequence='"
                      +:+ format sequence +:+ ") >")
          end
      end
  end.

End class.
End Loops.

(** ** The module, with a constructor that may raise

    The call of [Loops] stands outside the [try] of [fault_tolerant_gather]:
    what it raises leaves [process_pdb_files] at once.  Here the
    constructor is a function that returns a row or raises, and a run ends
    either at its [return] or where the constructor raised, with the
    statistics and the calls made until then. *)

Inductive ending (S E : Type) : Type :=
  | Returned (s : S)
  | Raised (s : S) (e : E).
Arguments Returned {S E} s.
Arguments Raised {S E} s e.

Module Raising.
Section create_loop_database.
Context {dict row Exception TypeError : Type}.
Context (str : Exception → string).
Context (gather_loops_from_pdb : string → outcome (list dict) Exception).
Context (pick : nat → nat → nat).

(** The constructor of the rows. *)
Context (Loops : dict → outcome row TypeError).

Definition loop_body (verbose : bool) (s : state row)
    (loop : item dict Exception) : ending (state row) TypeError :=
  let s := update_stats (add_total_loops 1) s in
  match loop with
  | IsTuple path ex =>
      let s := update_stats (add_failed 1) s in
      Returned (perform (print (failure_notice str verbose path ex)) s)
  | IsDict loop =>
      match Loops loop with
      | Raise e => Raised s e
      | Return loop_entry =>
          let s := perform (session_add loop_entry) s in
          Returned (update_stats (add_succeeded 1) s)
      end
  end.

(** [for loop in itertools.chain(...)], left at the first raise. *)
Fixpoint for_loops (verbose : bool) (s : state row)
    (loops : list (item dict Exception)) : ending (state row) TypeError :=
  match loops with
  | [] => Returned s
  | loop :: loops =>
      match loop_body verbose s loop with
      | Returned s => for_loops verbose s loops
      | Raised s e => Raised s e
      end
  end.

Definition chunk_body (processes : Z) (verbose : bool) (k : nat)
    (s : state row) (paths : list string)
    : option (ending (state row) TypeError) :=
  lists ← loop_lists gather_loops_from_pdb pick k processes paths;
  let s := perform (map_gather paths) s in
  let s := update_stats (add_total_pdbs (length paths)) s in
  match for_loops verbose s (Py.chain lists) with
  | Returned s => Some (Returned (perform session_commit s))
  | Raised s e => Some (Raised s e)
  end.

Fixpoint for_chunks (processes : Z) (verbose : bool) (k : nat)
    (s : state row) (chunks : list (list string))
    : option (ending (state row) TypeError) :=
  match chunks with
  | [] => Some (Returned s)
  | paths :: chunks =>
      r ← chunk_body processes verbose k s paths;
      match r with
      | Returned s => for_chunks processes verbose (S k) s chunks
      | Raised s e => Some (Raised s e)
      end
  end.

Definition process_pdb_files (data_file_paths : list string)
    (output_path : string) (processes : Z) (verbose : bool)
    : option (ending (state row) TypeError) :=
  let s := State (Stats 0 0 0 0) [create_all output_path] in
  r ← for_chunks processes verbose 0 s (data_chunks data_file_paths);
  match r with
  | Returned s => Some (Returned (perform (print (summary (db_stats s))) s))
  | Raised s e => Some (Raised s e)
  end.

(** The rows of the loops the constructor returns on. *)
Definition rows (loops : list dict) : list row :=
  omap (λ loop,
    match Loops loop with Return r => Some r | Raise _ => None end) loops.

(** The constructor returns on every one of the loops. *)
Definition accepted (loops : list dict) : Prop :=
  Forall (λ loop, ∃ r, Loops loop = Return r) loops.

(** The calls the loop body makes for items it returns on. *)
Definition item_calls (verbose : bool) (items : list (item dict Exception))
    : list (call row) :=
  omap (λ i,
    match i with
    | IsDict loop =>
        match Loops loop with
        | Return r => Some (session_add r)
        | Raise _ => None
        end
    | IsTuple path ex => Some (print (failure_notice str verbose path ex))
    end) items.

(** The calls of one turn of the loop over the chunks that returns. *)
Definition chunk_calls (verbose : bool) (paths : list string)
    : list (call row) :=
  map_gather paths
    :: item_calls verbose
         (Py.chain (fault_tolerant_gather gather_loops_from_pdb <$> paths))
    ++ [session_commit].

End create_loop_database.
End Raising.

(** ** Digits *)

Definition is_digit (c : ascii) : bool :=
  bool_decide (c ∈ ["0"; "1"; "2"; "3"; "4"; "5"; "6"; "7"; "8"; "9"]%char).

Fixpoint digits (s : string) : bool :=
  match s with
  | EmptyString => true
  | String c s => is_digit c && digits s
  end.

(** ** More extractors to run the module on *)

Module Cases.

(** A constructor that raises on the loop of [150.pdb] and returns
    every other loop as its row. *)
Definition Loops_but_150 (loop : string) : outcome string string :=
  if decide (loop = "150.pdb") then Raise "TypeError" else Return loop.


(** Some of the names a mapped class has from its base and from
    [object]. *)
Definition inherited : list string :=
  ["metadata"; "registry"; "__init__"; "__class__"; "__dict__"; "__doc__"].

(** The keywords of a loop, with texts for values, and the row the
    constructor makes of them. *)
Definition loop_1abc : list (string * string) :=
  [("pdb_code", "1abc"); ("loop_type", "alpha-beta"); ("chain", "A")].

Definition row_1abc : gmap string string :=
  <["chain":="A"]> (<["loop_type":="alpha-beta"]> (<["pdb_code":="1abc"]> ∅)).

Definition format (a : attribute string) : string :=
  match a with
  | SetTo v => v
  | PyNone => "None"
  | OfClass name => name
  end.

End Cases.

(** ** The module, with every call that may fail

    What the runs above leave out: an exception of [gather_loops_from_pdb]
    that is no [Exception] and so passes the [except Exception] clause; the
    constructor [Loops], the session and the console, which are called
    outside any [try] and may raise; and the pool, whose workers send
    their results pickled, which may fail on either side, and which hands
    nothing back when a worker is lost.  A run ends at its [return], or
    where an exception leaves it, or never. *)

Inductive run_end (S E : Type) : Type :=
  | Returns (s : S)
  | Raises (s : S) (e : E)
  | Hangs (s : S).
Arguments Returns {S E} s.
Arguments Raises {S E} s e.
Arguments Hangs {S E} s.

(** The state a run ends in. *)
Definition state_at {S E} (r : run_end S E) : S :=
  match r with
  | Returns s => s
  | Raises s _ => s
  | Hangs s => s
  end.

Definition and_then {S E} (r : run_end S E) (k : S → run_end S E)
    : run_end S E :=
  match r with
  | Returns s => k s
  | Raises s e => Raises s e
  | Hangs s => Hangs s
  end.

(** A run that returns ends in a state with [P], one that does not in a
    state with [Q]. *)
Definition ends_in {S E} (P Q : S → Prop) (r : run_end S E) : Prop :=
  match r with
  | Returns s => P s
  | Raises s _ => Q s
  | Hangs s => Q s
  end.

(** What becomes of a result a worker sends: it arrives, as it was sent;
    or it cannot be pickled, and [put] raises; or it cannot be unpickled,
    and the thread that handles the results dies of it. *)
Inductive sent (E : Type) : Type :=
  | Arrives
  | NotPickled (e : E)
  | NotUnpickled.
Arguments Arrives {E}.
Arguments NotPickled {E} e.
Arguments NotUnpickled {E}.

(** What the pool has of a task: its results, or the exception the worker
    sent in their place, or nothing. *)
Inductive arrival (B E : Type) : Type :=
  | Results (rs : list B)
  | Failure (e : E)
  | NoArrival.
Arguments Results {B E} rs.
Arguments Failure {B E} e.
Arguments NoArrival {B E}.

(** [pool.map(...)]: the list it returns, the exception it raises, or no
    return. *)
Inductive pooled (B E : Type) : Type :=
  | Handed (l : list B)
  | Reraised (e : E)
  | Never.
Arguments Handed {B E} l.
Arguments Reraised {B E} e.
Arguments Never {B E}.

(** A [MapResult]: [_value] is the list while [_success] holds and the
    first exception after. *)
Record map_result (B E : Type) : Type := MapResult {
  _success : bool;
  _value : list (option B);
  _error : option E;
}.
Arguments MapResult {B E} _success _value _error.
Arguments _success {B E} m.
Arguments _value {B E} m.
Arguments _error {B E} m.

(** The world a run lives in: the repository's extractor and row
    constructor, the classes of the exceptions, the calls that raise, and
    the pool with its scheduler and its pickling. *)
Record world (dict row exc : Type) : Type := World {
  (** [isinstance(e, Exception)] *)
  is_Exception : exc → bool;
  (** [str(ex)] *)
  str : exc → string;
  gather_loops_from_pdb : string → outcome (list dict) exc;
  (** The constructor of the rows. *)
  Loops : dict → outcome row exc;
  (** Whether a call on the database or the console raises, after the
      calls made so far. *)
  raises : list (call row) → call row → option exc;
  (** Whether [multiprocessing.Pool(processes)] raises. *)
  new_pool : Z → option exc;
  (** The scheduler of the pool made for the k-th chunk. *)
  pick : nat → nat → nat;
  (** The way of a list of results, and of an exception, from a worker. *)
  send : list (list (item dict exc)) → sent exc;
  send_exception : exc → sent exc;
  (** [MaybeEncodingError(e, ...)] *)
  MaybeEncodingError : exc → exc;
}.
Arguments World {dict row exc}.
Arguments is_Exception {dict row exc} w e.
Arguments str {dict row exc} w e.
Arguments gather_loops_from_pdb {dict row exc} w path.
Arguments Loops {dict row exc} w loop.
Arguments raises {dict row exc} w history c.
Arguments new_pool {dict row exc} w processes.
Arguments pick {dict row exc} w k number_left.
Arguments send {dict row exc} w results.
Arguments send_exception {dict row exc} w e.
Arguments MaybeEncodingError {dict row exc} w e.

Module Failing.
Section create_loop_database.
Context {dict row exc : Type}.
Context (w : world dict row exc).

(** [try: loops = gather_loops_from_pdb(path)], [except Exception as e]. *)
Definition fault_tolerant_gather (path : string)
    : outcome (list (item dict exc)) exc :=
  match gather_loops_from_pdb w path with
  | Return loops => Return (IsDict <$> loops)
  | Raise e => if is_Exception w e then Return [IsTuple path e] else Raise e
  end.

(** [list(map(func, x))]: the results in order, up to the first call that
    raises.  It is what a worker does of a batch, and what unpacking the
    lazy [map] of the sequential branch comes to. *)
Fixpoint mapstar {A B} (func : A → outcome B exc) (x : list A)
    : outcome (list B) exc :=
  match x with
  | [] => Return []
  | a :: x =>
      match func a with
      | Raise e => Raise e
      | Return b =>
          match mapstar func x with
          | Raise e => Raise e
          | Return bs => Return (b :: bs)
          end
      end
  end.

(** [multiprocessing.pool.worker] on one batch.  An [Exception] of the
    function is sent in place of the results; what is no [Exception]
    ends the worker, and the task with it. *)
Definition worker (x : list string) : arrival (list (item dict exc)) exc :=
  match mapstar fault_tolerant_gather x with
  | Return rs =>
      match send w rs with
      | Arrives => Results rs
      | NotPickled e => Failure (MaybeEncodingError w e)
      | NotUnpickled => NoArrival
      end
  | Raise e =>
      if is_Exception w e then
        match send_exception w e with
        | Arrives => Failure e
        | NotPickled e' => Failure (MaybeEncodingError w e')
        | NotUnpickled => NoArrival
        end
      else NoArrival
  end.

(** [MapResult._set]: results are filed while no task has failed, and the
    first exception is kept. *)
Definition _set (size i : nat) (a : arrival (list (item dict exc)) exc)
    (r : map_result (list (item dict exc)) exc)
    : map_result (list (item dict exc)) exc :=
  match a with
  | Results rs =>
      if _success r
      then MapResult true (Pool._set size i (Some <$> rs) (_value r)) (_error r)
      else r
  | Failure e =>
      if _success r then MapResult false (_value r) (Some e) else r
  | NoArrival => r
  end.

(** The workers, as in [Pool.complete]; a task of which nothing arrives
    leaves the result for ever short of a task. *)
Fixpoint complete (pick : nat → nat) (size number_left : nat)
    (outstanding : list (nat * list string))
    (r : map_result (list (item dict exc)) exc)
    : option (map_result (list (item dict exc)) exc) :=
  match number_left with
  | 0 => Some r
  | S number_left =>
      match outstanding !! (pick number_left mod length outstanding) with
      | Some (i, x) =>
          match worker x with
          | NoArrival => None
          | a =>
              complete pick size number_left
                (delete (pick number_left mod length outstanding) outstanding)
                (_set size i a r)
          end
      | None => Some r
      end
  end.

(** [pool.map(fault_tolerant_gather, paths)], with [get()] at its end. *)
Definition pool_map (pick : nat → nat) (processes : nat) (paths : list string)
    : pooled (list (item dict exc)) exc :=
  let size := Pool.chunksize processes (length paths) in
  let task_batches := Pool.get_tasks size paths in
  match complete pick size (length task_batches) task_batches
          (MapResult true (replicate (length paths) None) None) with
  | None => Never
  | Some r =>
      if _success r then
        match mapM id (_value r) with
        | Some lists => Handed lists
        | None => Never
        end
      else
        match _error r with
        | Some e => Reraised e
        | None => Never
        end
  end.

(** A call on the database or the console. *)
Definition call_ (c : call row) (s : state row) : run_end (state row) exc :=
  match raises w (calls s) c with
  | Some e => Raises s e
  | None => Returns (perform c s)
  end.

Definition loop_body (verbose : bool) (s : state row)
    (loop : item dict exc) : run_end (state row) exc :=
  let s := update_stats (add_total_loops 1) s in
  match loop with
  | IsTuple path ex =>
      let s := update_stats (add_failed 1) s in
      call_ (print (failure_notice (str w) verbose path ex)) s
  | IsDict loop =>
      match Loops w loop with
      | Raise e => Raises s e
      | Return loop_entry =>
          and_then (call_ (session_add loop_entry) s)
            (λ s, Returns (update_stats (add_succeeded 1) s))
      end
  end.

Fixpoint for_loops (verbose : bool) (s : state row)
    (loops : list (item dict exc)) : run_end (state row) exc :=
  match loops with
  | [] => Returns s
  | loop :: loops =>
      and_then (loop_body verbose s loop) (λ s, for_loops verbose s loops)
  end.

(** The body of [for paths in data_chunks] from line 93 on: the loop over
    the items and the commit. *)
Definition rest_of_chunk (verbose : bool) (s : state row)
    (loop_lists : list (list (item dict exc))) : run_end (state row) exc :=
  and_then (for_loops verbose s (Py.chain loop_lists)) (call_ session_commit).

(** The body of [for paths in data_chunks].  With a pool the lists are
    there before [total_pdbs] is added to; without one, [map] is lazy and
    its calls are made when line 93 unpacks it, after. *)
Definition chunk_body (processes : Z) (verbose : bool) (k : nat)
    (s : state row) (paths : list string) : run_end (state row) exc :=
  if decide (1 < processes)%Z then
    match new_pool w processes with
    | Some e => Raises s e
    | None =>
        let s := perform (map_gather paths) s in
        match pool_map (pick w k) (Z.to_nat processes) paths with
        | Handed loop_lists =>
            let s := update_stats (add_total_pdbs (length paths)) s in
            rest_of_chunk verbose s loop_lists
        | Reraised e => Raises s e
        | Never => Hangs s
        end
    end
  else
    let s := update_stats (add_total_pdbs (length paths)) s in
    let s := perform (map_gather paths) s in
    match mapstar fault_tolerant_gather paths with
    | Return loop_lists => rest_of_chunk verbose s loop_lists
    | Raise e => Raises s e
    end.

Fixpoint for_chunks (processes : Z) (verbose : bool) (k : nat)
    (s : state row) (chunks : list (list string))
    : run_end (state row) exc :=
  match chunks with
  | [] => Returns s
  | paths :: chunks =>
      and_then (chunk_body processes verbose k s paths)
        (λ s, for_chunks processes verbose (S k) s chunks)
  end.

Definition process_pdb_files (data_file_paths : list string)
    (output_path : string) (processes : Z) (verbose : bool)
    : run_end (state row) exc :=
  and_then (call_ (create_all output_path) (State (Stats 0 0 0 0) []))
    (λ s,
      and_then
        (for_chunks processes verbose 0 s (data_chunks data_file_paths))
        (λ s, call_ (print (summary (db_stats s))) s)).

(** *** The conditions of a run that nothing disturbs *)

(** No call on the database or the console raises. *)
Definition calm : Prop := ∀ history c, raises w history c = None.

(** What [gather_loops_from_pdb] raises on the paths is an [Exception]. *)
Definition only_Exceptions (paths : list string) : Prop :=
  ∀ path e, path ∈ paths → gather_loops_from_pdb w path = Raise e →
            is_Exception w e = true.

(** With more than one process, the pool is made and the results of the
    paths arrive. *)
Definition delivers (processes : Z) (paths : list string) : Prop :=
  (1 < processes)%Z →
  new_pool w processes = None
  ∧ ∀ results,
      (∀ r, r ∈ results →
            ∃ path, path ∈ paths ∧ fault_tolerant_gather path = Return r) →
      send w results = Arrives.

(** The constructor returns on every loop gathered. *)
Definition accepts (paths : list string) : Prop :=
  Raising.accepted (Loops w)
    (gathered (gather_loops_from_pdb w) paths).

(** The cut of the paths into chunks, written out. *)
Definition cut (paths : list string) : list (list string) :=
  (λ i, take 100 (drop (i * 100) paths)) <$> seq 0 ((length paths + 99) / 100).


End create_loop_database.

(** A run of the module [Raising] as a run of this one. *)
Definition of_ending {S E} (r : ending S E) : run_end S E :=
  match r with
  | Returned s => Returns s
  | Raised s e => Raises s e
  end.

(** How far a state is from an earlier one: the chunks mapped since, what
    was added to [total_pdbs], the commits made, and by how much
    [total_loops] grew more than [succeeded] and [failed] together. *)
Definition progress {row} (s s' : state row) (chunks : list (list string))
    (p c d : nat) : Prop :=
  mapped (calls s') = mapped (calls s) ++ chunks
  ∧ total_pdbs (db_stats s') = total_pdbs (db_stats s) + p
  ∧ commits (calls s') = commits (calls s) + c
  ∧ total_loops (db_stats s') + succeeded (db_stats s) + failed (db_stats s)
    = total_loops (db_stats s) + succeeded (db_stats s') + failed (db_stats s')
      + d.

(** How far a run that was left or never returned may have come through
    [chunks]: some of them are mapped, the last of these maybe not
    committed and not counted in [total_pdbs], and one item maybe counted
    in [total_loops] alone. *)
Definition stopped {row} (s s' : state row) (chunks : list (list string))
    : Prop :=
  ∃ pre p c d,
    pre `prefix_of` chunks ∧ p ≤ length (concat pre)
    ∧ c ≤ length pre ≤ c + 1 ∧ d ≤ 1
    ∧ progress s s' pre p c d.

End Failing.

(** ** Worlds to run the module in *)

Module Worlds.

(** The exceptions are texts; all are [Exception]s but the keyboard
    interrupt. *)
Definition is_Exception (e : string) : bool :=
  bool_decide (e ≠ "KeyboardInterrupt").

(** A world where no call raises and everything sent arrives. *)
Definition quiet {dict row : Type}
    (gather : string → outcome (list dict) string)
    (Loops : dict → outcome row string) : world dict row string :=
  World is_Exception id gather Loops (λ _ _, None) (λ _, None)
    Sample.scrambled (λ _, Arrives) (λ _, Arrives)
    (λ e, "MaybeEncodingError: " +:+ e).

(** [bad.pdb] is malformed, [stop.pdb] is where the user interrupts,
    every other file has one loop, named after the file. *)
Definition one_or_raise (path : string) : outcome (list string) string :=
  if decide (path = "bad.pdb") then Raise "malformed"
  else if decide (path = "stop.pdb") then Raise "KeyboardInterrupt"
  else Return [path].

(** The three kinds of file in a world where no call raises and
    everything sent arrives. *)
Definition three_kinds : world string string string :=
  quiet one_or_raise Return.




(** A world where the second commit raises. *)
Definition second_commit_raises : world string string string :=
  World is_Exception id Sample.one_loop Return
    (λ history c,
       match c with
       | session_commit =>
           if decide (commits history = 1) then Some "OperationalError"
           else None
       | _ => None
       end)
    (λ _, None) Sample.scrambled (λ _, Arrives) (λ _, Arrives)
    (λ e, "MaybeEncodingError: " +:+ e).

End Worlds.

(** ** Facts about chunking *)

Section chunking.
Context {A : Type}.
Implicit Types (l : list A) (size : nat).

Lemma slice_take_drop l i size :
  Py.slice l i (i + size) = take size (drop i l).
Proof. unfold Py.slice. f_equal. lia. Qed.

Lemma range_length_0 stop size :
  0 < size → Py.range_length 0 stop size * size < stop + size
             ∧ stop ≤ Py.range_length 0 stop size * size.
Proof.
  intros Hs. unfold Py.range_length. case_decide; [|lia].
  replace (stop - 0 - 1) with (stop - 1) by lia.
  pose proof (Nat.div_mod_eq (stop - 1) size) as Hd.
  pose proof (Nat.mod_upper_bound (stop - 1) size) as Hm.
  nia.
Qed.

Lemma length_chunks_of size l :
  length (chunks_of size l) = Py.range_length 0 (length l) size.
Proof. unfold chunks_of, Py.range. by rewrite !length_fmap, length_seq. Qed.

Lemma lookup_chunks_of size l i :
  chunks_of size l !! i =
    if decide (i < Py.range_length 0 (length l) size)
    then Some (take size (drop (i * size) l)) else None.
Proof.
  unfold chunks_of, Py.range. rewrite !list_lookup_fmap.
  case_decide as Hi.
  - rewrite lookup_seq_lt by done. simpl. by rewrite slice_take_drop.
  - rewrite lookup_seq_ge by lia. done.
Qed.

Lemma concat_chunks_prefix size l k :
  concat ((λ i, take size (drop (i * size) l)) <$> seq 0 k) = take (k * size) l.
Proof.
  induction k as [|k IH]; [done|].
  rewrite seq_S, fmap_app, concat_app, IH. simpl.
  rewrite app_nil_r, take_take_drop. f_equal. lia.
Qed.

Lemma concat_chunks_of size l : 0 < size → concat (chunks_of size l) = l.
Proof.
  intros Hs. unfold chunks_of, Py.range. rewrite <-list_fmap_compose.
  erewrite list_fmap_ext; [rewrite (concat_chunks_prefix size)|].
  - apply take_ge. apply range_length_0. done.
  - intros _ i _. simpl. by rewrite slice_take_drop.
Qed.

Lemma chunk_length size l i c :
  0 < size → chunks_of size l !! i = Some c →
  0 < length c ≤ size ∧ (S i < length (chunks_of size l) → length c = size).
Proof.
  intros Hs. rewrite lookup_chunks_of, length_chunks_of.
  pose proof (range_length_0 (length l) size Hs) as [Hlt Hle].
  case_decide as Hi; [|done]. intros [= <-].
  rewrite length_take, length_drop. split; [nia|]. intros Hlast. nia.
Qed.

Lemma chunk_lookup size l i c j :
  chunks_of size l !! i = Some c → j < length c →
  c !! j = l !! (i * size + j).
Proof.
  rewrite lookup_chunks_of. case_decide; [|done]. intros [= <-] Hj.
  rewrite length_take in Hj.
  rewrite lookup_take_lt by lia. by rewrite lookup_drop.
Qed.

Lemma chunk_covers size l k :
  0 < size → k < length l →
  ∃ c, chunks_of size l !! (k / size) = Some c
       ∧ k mod size < length c ∧ c !! (k mod size) = l !! k.
Proof.
  intros Hs Hk.
  pose proof (range_length_0 (length l) size Hs) as [Hlt Hle].
  pose proof (Nat.div_mod_eq k size) as Hd.
  pose proof (Nat.mod_upper_bound k size) as Hm.
  exists (take size (drop (k / size * size) l)).
  assert (k / size < Py.range_length 0 (length l) size) as Hi by nia.
  rewrite lookup_chunks_of. rewrite decide_True by done.
  rewrite length_take, length_drop. split_and!; [done|nia|].
  rewrite lookup_take_lt by lia. rewrite lookup_drop. f_equal. nia.
Qed.

End chunking.

Lemma data_chunks_chunks_of paths : data_chunks paths = chunks_of 100 paths.
Proof. reflexivity. Qed.

(** ** Facts about the pool *)

Section pool.
Context {A B : Type} (pick : nat → nat) (func : A → B).
Implicit Types (xs : list A) (value : list (option B)).

Lemma div_block j size i :
  0 < size → (j / size = i ↔ i * size ≤ j < (i + 1) * size).
Proof.
  intros Hs.
  pose proof (Nat.div_mod_eq j size). pose proof (Nat.mod_upper_bound j size).
  split; [intros <-; nia|]. intros [??]. nia.
Qed.

(** Filing the results of batch [i] fills its places and no other. *)
Lemma lookup_set size xs value i j :
  0 < size → length value = length xs → i * size < length xs →
  Pool._set size i (Some ∘ func <$> take size (drop (i * size) xs)) value !! j
  = if decide (j / size = i) then Some ∘ func <$> xs !! j else value !! j.
Proof.
  intros Hs Hlen Hi. unfold Pool._set.
  pose proof (div_block j size i Hs) as Hdiv.
  set (r := Some ∘ func <$> _).
  assert (length r = size `min` (length xs - i * size)) as Hr
    by (unfold r; by rewrite length_fmap, length_take, length_drop).
  assert (length (take (i * size) value) = i * size) as Ht
    by (rewrite length_take; lia).
  destruct (decide (j < i * size)) as [Hlt|Hge].
  { rewrite lookup_app_l by lia. rewrite lookup_take_lt by done.
    rewrite decide_False by lia. done. }
  rewrite lookup_app_r by lia. rewrite Ht.
  destruct (decide (j - i * size < length r)) as [Hin|Hout].
  { rewrite lookup_app_l by done. rewrite decide_True by lia.
    unfold r. rewrite list_lookup_fmap, lookup_take_lt by lia.
    rewrite lookup_drop. do 2 f_equal. lia. }
  rewrite lookup_app_r by lia. rewrite lookup_drop.
  destruct (decide (length r = size)) as [Hfull|Hshort].
  { rewrite decide_False by lia. f_equal. lia. }
  rewrite (lookup_ge_None_2 value) by lia.
  rewrite (lookup_ge_None_2 xs) by lia.
  by case_decide; rewrite ?(lookup_ge_None_2 value) by lia.
Qed.

Lemma complete_spec size xs number_left outstanding value :
  0 < size →
  length outstanding = number_left →
  NoDup outstanding.*1 →
  (∀ i x, (i, x) ∈ outstanding →
          x = take size (drop (i * size) xs) ∧ i * size < length xs) →
  length value = length xs →
  (∀ j, value !! j =
        (λ a, if decide (j / size ∈ outstanding.*1) then None
              else Some (func a)) <$> xs !! j) →
  Pool.complete pick func size number_left outstanding value
  = Some ∘ func <$> xs.
Proof.
  intros Hs. revert outstanding value.
  induction number_left as [|n IH]; intros outstanding value Hn Hnd Hin Hlen Hval.
  - apply length_zero_iff_nil in Hn as ->. simpl.
    apply list_eq. intros j. rewrite Hval, list_lookup_fmap.
    destruct (xs !! j); [|done].
    destruct (decide (j / size ∈ ([] : list (nat * list A)).*1)) as [Hc|];
      [by apply elem_of_nil in Hc|done].
  - simpl. set (k := pick n mod length outstanding).
    assert (k < length outstanding) as Hk
      by (apply Nat.mod_upper_bound; lia).
    destruct (lookup_lt_is_Some_2 _ _ Hk) as [[i x] Hix]. rewrite Hix.
    pose proof (delete_Permutation _ _ _ Hix) as Hperm.
    assert (outstanding.*1 ≡ₚ i :: (delete k outstanding).*1) as Hperm1
      by (by rewrite Hperm at 1).
    rewrite Hperm1 in Hnd. apply NoDup_cons in Hnd as [Hi Hnd].
    destruct (Hin i x) as [-> Hix'];
      [by eapply list_elem_of_lookup_2|].
    apply IH; [| done | | |].
    + rewrite length_delete by eauto. lia.
    + intros i' x' Hd. apply Hin. by eapply list_elem_of_delete_inv.
    + unfold Pool._set. rewrite !length_app, length_fmap, !length_take,
        !length_drop. lia.
    + intros j. rewrite lookup_set, Hval by done.
      destruct (xs !! j) as [a|]; [|by case_decide].
      cbn [fmap option_fmap option_map].
      case_decide as Hj.
      * subst i. by rewrite decide_False.
      * f_equal. apply decide_ext.
        rewrite Hperm1, elem_of_cons. intuition congruence.
Qed.

Lemma get_tasks_fst size xs :
  (Pool.get_tasks size xs).*1 = seq 0 (length (chunks_of size xs)).
Proof.
  unfold Pool.get_tasks. apply list_eq. intros i.
  rewrite list_lookup_fmap, list_lookup_imap.
  destruct (chunks_of size xs !! i) as [c|] eqn:Hc; simpl.
  - rewrite lookup_seq_lt; [done|]. by eapply lookup_lt_Some.
  - rewrite lookup_seq_ge; [done|]. by apply lookup_ge_None.
Qed.

Lemma chunksize_pos processes n : n ≠ 0 → 0 < Pool.chunksize processes n.
Proof.
  intros Hn. unfold Pool.chunksize, Py.divmod. rewrite decide_False by done.
  case_decide as Hextra; [|lia].
  destruct (decide (processes * 4 = 0)) as [Hz|Hnz].
  - rewrite Hz in Hextra. simpl in Hextra. done.
  - pose proof (Nat.div_mod_eq n (processes * 4)). nia.
Qed.

(** Whatever the order in which the workers complete their tasks,
    [pool.map] hands back the results in the order of the iterable. *)
Lemma pool_map_fmap processes xs :
  Pool.map pick processes func xs = Some (func <$> xs).
Proof.
  unfold Pool.map. destruct (decide (length xs = 0)) as [Hz|Hnz].
  { apply length_zero_iff_nil in Hz as ->. unfold Pool.chunksize. simpl.
    done. }
  pose proof (chunksize_pos processes _ Hnz) as Hs.
  set (size := Pool.chunksize processes (length xs)) in *.
  rewrite (complete_spec size xs).
  - rewrite list_fmap_compose. apply mapM_fmap_Some. done.
  - done.
  - done.
  - rewrite get_tasks_fst. apply NoDup_seq.
  - intros i x [j [y [Heq Hc]]]%elem_of_lookup_imap. simplify_eq.
    rewrite lookup_chunks_of in Hc. case_decide as Hlt; [|done].
    simplify_eq. split; [done|].
    pose proof (range_length_0 (length xs) size Hs). nia.
  - apply length_replicate.
  - intros j. rewrite get_tasks_fst, length_chunks_of.
    pose proof (range_length_0 (length xs) size Hs) as [??].
    destruct (xs !! j) as [a|] eqn:Ha; simpl.
    + apply lookup_lt_Some in Ha. rewrite lookup_replicate_2 by done.
      rewrite decide_True; [done|]. apply elem_of_seq.
      pose proof (Nat.div_mod_eq j size).
      pose proof (Nat.mod_upper_bound j size). nia.
    + apply lookup_ge_None in Ha. by apply lookup_replicate_None.
Qed.

End pool.

(** ** Facts about the loop over the items and the chunks *)

Section run.
Context {dict Exception : Type}.
Context (str : Exception → string).
Context (gather : string → outcome (list dict) Exception).
Context (pick : nat → nat → nat).
Implicit Types (s : state dict) (paths : list string)
  (items : list (item dict Exception)).

Local Abbreviation ftg := (fault_tolerant_gather gather).

Lemma dicts_tuples_length items :
  length items = length (dicts items) + length (tuples items).
Proof.
  induction items as [|[loop|path ex] items IH]; simpl; [done|..];
    rewrite IH; lia.
Qed.

Lemma dicts_gather path :
  dicts (ftg path)
  = match gather path with Return loops => loops | Raise _ => [] end.
Proof.
  unfold fault_tolerant_gather. destruct (gather path) as [loops|e]; [|done].
  induction loops as [|loop loops IH]; [done|]. simpl. by f_equal.
Qed.

Lemma tuples_gather path :
  tuples (ftg path)
  = match gather path with Return _ => [] | Raise e => [(path, e)] end.
Proof.
  unfold fault_tolerant_gather. destruct (gather path) as [loops|e]; [|done].
  by induction loops as [|loop loops IH].
Qed.

Lemma dicts_app items1 items2 :
  dicts (items1 ++ items2) = dicts items1 ++ dicts items2.
Proof. apply omap_app. Qed.

Lemma tuples_app items1 items2 :
  tuples (items1 ++ items2) = tuples items1 ++ tuples items2.
Proof. apply omap_app. Qed.

Lemma dicts_chain paths : dicts (Py.chain (ftg <$> paths)) = gathered gather paths.
Proof.
  unfold Py.chain. induction paths as [|path paths IH]; [done|].
  cbn [fmap list_fmap concat]. rewrite dicts_app, IH, dicts_gather. done.
Qed.

Lemma tuples_chain paths : tuples (Py.chain (ftg <$> paths)) = raising gather paths.
Proof.
  unfold Py.chain. induction paths as [|path paths IH]; [done|].
  cbn [fmap list_fmap concat]. rewrite tuples_app, IH, tuples_gather.
  unfold raising. simpl. by destruct (gather path).
Qed.

Lemma gathered_app paths1 paths2 :
  gathered gather (paths1 ++ paths2)
  = gathered gather paths1 ++ gathered gather paths2.
Proof. unfold gathered. apply bind_app. Qed.

Lemma raising_app paths1 paths2 :
  raising gather (paths1 ++ paths2)
  = raising gather paths1 ++ raising gather paths2.
Proof. unfold raising. apply omap_app. Qed.

(** The loop over the items: one call for each of them, one more
    [total_loops] for each of them, one more [succeeded] for each dict and
    one more [failed] for each tuple. *)
Lemma foldl_loop_body verbose s items :
  foldl (loop_body str verbose) s items
  = State
      (Stats (total_pdbs (db_stats s))
             (succeeded (db_stats s) + length (dicts items))
             (failed (db_stats s) + length (tuples items))
             (total_loops (db_stats s) + length items))
      (calls s ++ (item_call str verbose <$> items)).
Proof.
  revert s. induction items as [|[loop|path ex] items IH]; intros [[????] cs].
  - simpl. rewrite !Nat.add_0_r, app_nil_r. done.
  - simpl. rewrite IH. simpl. rewrite <-app_assoc. simpl.
    f_equal. f_equal; lia.
  - simpl. rewrite IH. simpl. rewrite <-app_assoc. simpl.
    f_equal. f_equal; lia.
Qed.

Lemma loop_lists_fmap k processes paths :
  loop_lists gather pick k processes paths = Some (ftg <$> paths).
Proof. unfold loop_lists. case_decide; [apply pool_map_fmap|done]. Qed.

Lemma chunk_body_eq processes verbose k s paths :
  chunk_body str gather pick processes verbose k s paths
  = Some (State
      (Stats (total_pdbs (db_stats s) + length paths)
             (succeeded (db_stats s) + length (gathered gather paths))
             (failed (db_stats s) + length (raising gather paths))
             (total_loops (db_stats s) + length (gathered gather paths)
                + length (raising gather paths)))
      (calls s ++ chunk_calls str gather verbose paths)).
Proof.
  unfold chunk_body. rewrite loop_lists_fmap. simpl.
  rewrite foldl_loop_body. unfold perform, chunk_calls. simpl.
  rewrite dicts_tuples_length, dicts_chain, tuples_chain.
  rewrite <-!app_assoc. simpl. do 3 f_equal. lia.
Qed.

Lemma for_chunks_eq processes verbose chunks : ∀ k s,
  for_chunks str gather pick processes verbose k s chunks
  = Some (State
      (Stats (total_pdbs (db_stats s) + length (concat chunks))
             (succeeded (db_stats s) + length (gathered gather (concat chunks)))
             (failed (db_stats s) + length (raising gather (concat chunks)))
             (total_loops (db_stats s)
                + length (gathered gather (concat chunks))
                + length (raising gather (concat chunks))))
      (calls s ++ concat (chunk_calls str gather verbose <$> chunks))).
Proof.
  induction chunks as [|paths chunks IH]; intros k [[????] cs].
  - simpl. rewrite !Nat.add_0_r, app_nil_r. done.
  - simpl. rewrite chunk_body_eq. simpl. rewrite IH. simpl.
    rewrite gathered_app, raising_app, !length_app, <-app_assoc.
    do 2 f_equal. f_equal; lia.
Qed.

(** A run returns, whatever the files, the extractor and the number of
    processes, and this is the state it returns in. *)
Lemma process_pdb_files_eq paths output_path processes verbose :
  process_pdb_files str gather pick paths output_path processes verbose
  = Some (State (final_stats gather paths)
      (create_all output_path
         :: concat (chunk_calls str gather verbose <$> data_chunks paths)
         ++ [print (summary (final_stats gather paths))])).
Proof.
  unfold process_pdb_files. rewrite for_chunks_eq. simpl.
  rewrite data_chunks_chunks_of, concat_chunks_of by lia. done.
Qed.

End run.

(** ** Facts about what a run leaves behind *)

Section views_facts.
Context {dict Exception : Type}.
Context (str : Exception → string).
Context (gather : string → outcome (list dict) Exception).
Implicit Types (cs : list (call dict)) (paths : list string)
  (items : list (item dict Exception)).

Lemma printed_app cs1 cs2 : printed (cs1 ++ cs2) = printed cs1 ++ printed cs2.
Proof. apply omap_app. Qed.

Lemma mapped_app cs1 cs2 : mapped (cs1 ++ cs2) = mapped cs1 ++ mapped cs2.
Proof. apply omap_app. Qed.

Lemma commits_app cs1 cs2 : commits (cs1 ++ cs2) = commits cs1 + commits cs2.
Proof. unfold commits. by rewrite omap_app, length_app. Qed.

End views_facts.

(** ** A whole run *)

Section whole_run.
Context {dict Exception : Type}.
Context (str : Exception → string).
Context (gather : string → outcome (list dict) Exception).
Context (pick : nat → nat → nat).
Implicit Types (paths : list string) (s : state dict).

Local Abbreviation ftg := (fault_tolerant_gather gather).
Local Abbreviation run := (process_pdb_files str gather pick).

Lemma all_one_loop verbose paths :
  (∀ path, path ∈ paths → ∃ loop, gather path = Return [loop]) →
  length (gathered gather paths) = length paths
  ∧ raising gather paths = []
  ∧ item_call str verbose <$> Py.chain (ftg <$> paths)
    = session_add <$> gathered gather paths.
Proof.
  induction paths as [|path paths IH]; intros Hone; [done|].
  destruct (Hone path) as [loop Hloop]; [by left|].
  destruct IH as (IH1 & IH2 & IH3); [intros; apply Hone; by right|].
  assert (gathered gather [path] = [loop]) as Hg
    by (unfold gathered; simpl; by rewrite Hloop).
  assert (raising gather [path] = []) as Hr
    by (unfold raising; simpl; by rewrite Hloop).
  assert (ftg path = [IsDict loop]) as Hf
    by (unfold fault_tolerant_gather; by rewrite Hloop).
  change (path :: paths) with ([path] ++ paths).
  rewrite gathered_app, raising_app, Hg, Hr, IH2. split_and!.
  - simpl. by rewrite IH1.
  - done.
  - unfold Py.chain in *. cbn [app fmap list_fmap concat].
    rewrite fmap_app, IH3, Hf. done.
Qed.

End whole_run.

(** ** More facts about the chunks and the counters *)

Section more_about_a_run.
Context {dict Exception : Type}.
Context (str : Exception → string).
Context (gather : string → outcome (list dict) Exception).
Context (pick : nat → nat → nat).
Implicit Types (paths : list string) (s : state dict).

Lemma range_length_ceil stop : Py.range_length 0 stop 100 = (stop + 99) / 100.
Proof.
  pose proof (range_length_0 stop 100) as [Hlt Hle]; [lia|].
  pose proof (Nat.div_mod_eq (stop + 99) 100).
  pose proof (Nat.mod_upper_bound (stop + 99) 100). lia.
Qed.

Lemma lengths_one_loop_per_file paths :
  (∀ path loops, path ∈ paths → gather path = Return loops →
                 length loops = 1) →
  length (gathered gather paths) + length (raising gather paths) = length paths.
Proof.
  induction paths as [|path paths IH]; intros Hone; [done|].
  change (path :: paths) with ([path] ++ paths).
  rewrite gathered_app, raising_app, !length_app, <-IH
    by (intros p l Hp; apply Hone; by right).
  unfold gathered, raising. simpl.
  destruct (gather path) as [loops|e] eqn:Hg; simpl; [|lia].
  rewrite app_nil_r, (Hone path loops); [lia|by left|done].
Qed.

End more_about_a_run.

(** ** Facts about the summary line *)

Lemma digits_pretty_N_go (x : N) (s : string) :
  digits s = true → digits (pretty_N_go x s) = true.
Proof.
  revert s. induction (N.lt_wf_0 x) as [x _ IH]; intros s Hs.
  destruct (decide (x = 0)%N) as [->|Hx]; [by rewrite pretty_N_go_0|].
  rewrite pretty_N_go_step by lia. apply IH.
  - apply N.div_lt; lia.
  - simpl. rewrite Hs, andb_true_r. unfold pretty_N_char.
    by repeat case_match.
Qed.

Lemma digits_pretty (n : nat) : digits (pretty n) = true.
Proof.
  unfold pretty, pretty_nat, pretty, pretty_N. case_decide; [done|].
  by apply digits_pretty_N_go.
Qed.

(** What follows a number in a line tells where the number ends. *)
Lemma digits_then_other (s1 s2 : string) (c : ascii) (r1 r2 : string) :
  digits s1 = true → digits s2 = true → is_digit c = false →
  s1 +:+ String c r1 = s2 +:+ String c r2 → s1 = s2 ∧ r1 = r2.
Proof.
  intros H1 H2 Hc. revert s2 H2.
  induction s1 as [|a s1 IH]; intros [|b s2] H2 Heq; simpl in *.
  - by simplify_eq.
  - simplify_eq. apply andb_true_iff in H2 as [Hb _]. congruence.
  - simplify_eq. apply andb_true_iff in H1 as [Ha _]. congruence.
  - apply andb_true_iff in H1 as [_ H1]. apply andb_true_iff in H2 as [_ H2].
    simplify_eq. destruct (IH H1 s2 H2) as [-> ->]; done.
Qed.

(** ** Facts about the [Loops] class *)

Section loops_class.
Context {value : Type} (inherited : list string).
Implicit Types (self : gmap string value) (kwargs : list (string * value)).

(** The constructor sets nothing but attributes of the class. *)
Lemma init_sets_attributes kwargs : ∀ self0 self,
  Loops.__init__ inherited kwargs self0 = Return self →
  (∀ k, is_Some (self0 !! k) → Loops.hasattr inherited k = true) →
  ∀ k, is_Some (self !! k) → Loops.hasattr inherited k = true.
Proof.
  induction kwargs as [|[k v] kwargs IH]; intros self0 self Hinit Hself0 k' Hk'.
  - simpl in Hinit. simplify_eq. by apply Hself0.
  - simpl in Hinit. destruct (Loops.hasattr inherited k) eqn:Hk; [|done].
    apply (IH _ _ Hinit); [|done]. intros k''.
    destruct (decide (k = k'')) as [<-|Hne]; [done|].
    rewrite lookup_insert_ne by done. apply Hself0.
Qed.

Lemma pdb_is_no_column : "pdb" ∉ Loops.columns.
Proof. apply (bool_decide_unpack _). by vm_compute. Qed.

Lemma getattr_column self name :
  name ∈ Loops.columns →
  ∃ a, Loops.getattr inherited self name = Return a.
Proof.
  intros Hcol. unfold Loops.getattr. destruct (self !! name); [by eexists|].
  rewrite bool_decide_eq_true_2 by done. by eexists.
Qed.

End loops_class.

(** ** Runs with a constructor that may raise *)

Section raising.
Context {dict row Exception TypeError : Type}.
Context (str : Exception → string).
Context (gather : string → outcome (list dict) Exception).
Context (pick : nat → nat → nat).
Context (Loops : dict → outcome row TypeError).
Implicit Types (s : state row) (paths : list string)
  (items : list (item dict Exception)).

Local Abbreviation ftg := (fault_tolerant_gather gather).
Local Abbreviation rows := (Raising.rows Loops).
Local Abbreviation accepted := (Raising.accepted Loops).
Local Abbreviation item_calls := (Raising.item_calls str Loops).
Local Abbreviation chunk_calls := (Raising.chunk_calls str gather Loops).

Lemma rows_app loops1 loops2 : rows (loops1 ++ loops2) = rows loops1 ++ rows loops2.
Proof. apply omap_app. Qed.

Lemma accepted_rows_length loops : accepted loops → length (rows loops) = length loops.
Proof.
  induction 1 as [|loop loops [r Hr] _ IH]; [done|].
  assert (rows [loop] = [r]) as Hrow
    by (unfold Raising.rows; simpl; by rewrite Hr).
  change (loop :: loops) with ([loop] ++ loops).
  by rewrite rows_app, Hrow, !length_app, IH.
Qed.

Lemma item_calls_app verbose items1 items2 :
  item_calls verbose (items1 ++ items2)
  = item_calls verbose items1 ++ item_calls verbose items2.
Proof. apply omap_app. Qed.

(** The loop over items the constructor returns on. *)
Lemma for_loops_accepted verbose items : ∀ s,
  accepted (dicts items) →
  Raising.for_loops str Loops verbose s items
  = Returned (State
      (Stats (total_pdbs (db_stats s))
             (succeeded (db_stats s) + length (dicts items))
             (failed (db_stats s) + length (tuples items))
             (total_loops (db_stats s) + length items))
      (calls s ++ item_calls verbose items)).
Proof.
  induction items as [|[loop|path ex] items IH]; intros [[????] cs] Hacc.
  - simpl. rewrite !Nat.add_0_r, app_nil_r. done.
  - apply Forall_cons in Hacc as [[r Hr] Hacc].
    cbn [Raising.for_loops Raising.loop_body]. rewrite Hr, IH by done.
    unfold Raising.item_calls. simpl. rewrite Hr. simpl.
    rewrite <-app_assoc. simpl. do 2 f_equal. f_equal; lia.
  - cbn [Raising.for_loops Raising.loop_body]. rewrite IH by done.
    unfold Raising.item_calls. simpl.
    rewrite <-app_assoc. simpl. do 2 f_equal. f_equal; lia.
Qed.



Lemma accepted_app loops1 loops2 :
  accepted (loops1 ++ loops2) ↔ accepted loops1 ∧ accepted loops2.
Proof. apply Forall_app. Qed.



(** The session along the calls of chunks that returned. *)
Lemma session_item_calls_raising verbose items staged db :
  foldl session_step (staged, db) (item_calls verbose items)
  = (staged ++ rows (dicts items), db).
Proof.
  revert staged. induction items as [|[loop|path ex] items IH]; intros staged.
  - simpl. by rewrite app_nil_r.
  - unfold Raising.item_calls, Raising.rows in *. simpl.
    destruct (Loops loop) as [r|e]; simpl; [|apply IH].
    rewrite IH. by rewrite <-app_assoc.
  - unfold Raising.item_calls in *. simpl. apply IH.
Qed.

Lemma session_chunks_raising verbose (chunks : list (list string)) db :
  foldl session_step ([], db) (concat (chunk_calls verbose <$> chunks))
  = ([], db ++ rows (gathered gather (concat chunks))).
Proof.
  revert db. induction chunks as [|paths chunks IH]; intros db.
  - simpl. by rewrite app_nil_r.
  - cbn [fmap list_fmap concat]. unfold Raising.chunk_calls at 1.
    rewrite foldl_app. cbn [foldl session_step fst snd].
    rewrite foldl_app, session_item_calls_raising. cbn [foldl session_step fst snd].
    rewrite IH, dicts_chain, gathered_app, rows_app.
    cbn [app]. by rewrite <-app_assoc.
Qed.

Lemma printed_item_calls_raising verbose items :
  printed (item_calls verbose items) = notice_of str verbose <$> tuples items.
Proof.
  induction items as [|[loop|path ex] items IH]; [done| |].
  - unfold Raising.item_calls in *. simpl. by destruct (Loops loop).
  - unfold Raising.item_calls in *. simpl. f_equal. apply IH.
Qed.

Lemma mapped_item_calls_raising verbose items :
  mapped (item_calls verbose items) = [].
Proof.
  induction items as [|[loop|path ex] items IH]; [done| |].
  - unfold Raising.item_calls in *. simpl. by destruct (Loops loop).
  - unfold Raising.item_calls in *. simpl. apply IH.
Qed.

Lemma commits_item_calls_raising verbose items :
  commits (item_calls verbose items) = 0.
Proof.
  induction items as [|[loop|path ex] items IH]; [done| |].
  - unfold Raising.item_calls in *. simpl. by destruct (Loops loop).
  - unfold Raising.item_calls in *. simpl. apply IH.
Qed.

Lemma views_chunks_raising verbose (chunks : list (list string)) :
  printed (concat (chunk_calls verbose <$> chunks))
    = notice_of str verbose <$> raising gather (concat chunks)
  ∧ mapped (concat (chunk_calls verbose <$> chunks)) = chunks
  ∧ commits (concat (chunk_calls verbose <$> chunks)) = length chunks.
Proof.
  induction chunks as [|paths chunks (IH1 & IH2 & IH3)]; [done|].
  cbn [fmap list_fmap concat].
  rewrite printed_app, mapped_app, commits_app, IH1, IH2, IH3.
  unfold Raising.chunk_calls.
  change (map_gather paths :: ?cs) with ([map_gather paths] ++ cs).
  rewrite !printed_app, !mapped_app, !commits_app,
    printed_item_calls_raising, mapped_item_calls_raising,
    commits_item_calls_raising, tuples_chain, raising_app, fmap_app.
  simpl. by rewrite app_nil_r.
Qed.

End raising.


(** With a constructor that always returns the loop as its row, the run
    that may raise is the run of [process_pdb_files] above: it returns, in
    the same state. *)
Lemma raising_run_with_Return {dict Exception TypeError : Type}
    (str : Exception → string)
    (gather : string → outcome (list dict) Exception)
    (pick : nat → nat → nat)
    (paths : list string) (output_path : string) (processes : Z)
    (verbose : bool) :
  Raising.process_pdb_files (TypeError := TypeError) str gather pick Return
    paths output_path processes verbose
  = Returned <$> process_pdb_files str gather pick paths output_path
                   processes verbose.
Proof.
  assert (∀ items (s : state dict),
            Raising.for_loops (TypeError := TypeError) str Return verbose s items
            = Returned (foldl (loop_body str verbose) s items)) as Hloops.
  { induction items as [|[loop|path ex] items IH]; intros s; [done|..];
      cbn [Raising.for_loops Raising.loop_body foldl]; by rewrite IH. }
  assert (∀ k (s : state dict) chunk,
            Raising.chunk_body (TypeError := TypeError) str gather pick Return
              processes verbose k s chunk
            = Returned <$> chunk_body str gather pick processes verbose k s
                             chunk) as Hchunk.
  { intros k s chunk. unfold Raising.chunk_body, chunk_body.
    destruct (loop_lists gather pick k processes chunk) as [lists|]; [|done].
    cbn [mbind option_bind]. by rewrite Hloops. }
  assert (∀ chunks k (s : state dict),
            Raising.for_chunks (TypeError := TypeError) str gather pick Return
              processes verbose k s chunks
            = Returned <$> for_chunks str gather pick processes verbose k s
                             chunks) as Hchunks.
  { induction chunks as [|chunk chunks IH]; intros k s; [done|].
    cbn [Raising.for_chunks for_chunks]. rewrite Hchunk.
    destruct (chunk_body str gather pick processes verbose k s chunk)
      as [s'|]; [|done].
    cbn [fmap option_fmap option_map mbind option_bind]. apply IH. }
  unfold Raising.process_pdb_files, process_pdb_files. rewrite Hchunks.
  by destruct (for_chunks _ _ _ _ _ _ _ _).
Qed.

(** ** Facts about the module with every call that may fail *)

Section failing_facts.
Context {dict row exc : Type} (w : world dict row exc).
Implicit Types (s : state row) (paths chunk : list string)
  (items : list (item dict exc)).

Local Abbreviation gather := (gather_loops_from_pdb w).
Local Abbreviation ftg0 := (fault_tolerant_gather (gather_loops_from_pdb w)).
Local Abbreviation ftg := (Failing.fault_tolerant_gather w).

Lemma chunk_subseteq paths chunk :
  chunk ∈ data_chunks paths → chunk ⊆ paths.
Proof.
  intros [i Hi]%list_elem_of_lookup.
  rewrite data_chunks_chunks_of, lookup_chunks_of in Hi.
  case_decide; [|done]. simplify_eq.
  etrans; [apply subseteq_take|apply subseteq_drop].
Qed.

Lemma cut_data_chunks paths : Failing.cut paths = data_chunks paths.
Proof.
  rewrite data_chunks_chunks_of. unfold Failing.cut, chunks_of, Py.range.
  rewrite range_length_ceil, <-list_fmap_compose.
  apply list_fmap_ext. intros _ i _. simpl. by rewrite slice_take_drop.
Qed.

(** Where only [Exception]s are raised, [fault_tolerant_gather] returns
    what it lists in the runs above. *)
Lemma ftg_returns paths path :
  Failing.only_Exceptions w paths → path ∈ paths →
  ftg path = Return (ftg0 path).
Proof.
  intros Honly Hin. unfold Failing.fault_tolerant_gather, fault_tolerant_gather.
  destruct (gather path) as [loops|e] eqn:Hg; [done|].
  by rewrite (Honly path e Hin Hg).
Qed.

Lemma mapstar_returns {A B} (func : A → outcome B exc) (f : A → B)
    (x : list A) :
  (∀ a, a ∈ x → func a = Return (f a)) →
  Failing.mapstar func x = Return (f <$> x).
Proof.
  induction x as [|a x IH]; intros Hf; [done|].
  simpl. rewrite (Hf a) by (by left). rewrite IH; [done|].
  intros a' Ha'. apply Hf. by right.
Qed.

Lemma mapstar_ftg paths chunk :
  Failing.only_Exceptions w paths → chunk ⊆ paths →
  Failing.mapstar ftg chunk = Return (ftg0 <$> chunk).
Proof.
  intros Honly Hsub. apply mapstar_returns.
  intros path Hin. eapply ftg_returns; [done|]. by apply Hsub.
Qed.

Lemma complete_delivering pick size number_left : ∀ outstanding value,
  (∀ i x, (i, x) ∈ outstanding → Failing.worker w x = Results (ftg0 <$> x)) →
  Failing.complete w pick size number_left outstanding
    (MapResult true value None)
  = Some (MapResult true
      (Pool.complete pick ftg0 size number_left outstanding value) None).
Proof.
  induction number_left as [|n IH]; intros outstanding value Hall; [done|].
  simpl.
  destruct (outstanding !! (pick n mod length outstanding))
    as [[i x]|] eqn:Hix; [|done].
  rewrite (Hall i x) by (eapply list_elem_of_lookup_2, Hix).
  simpl. rewrite <-list_fmap_compose. apply IH.
  intros i' x' Hin. apply (Hall i'). by eapply list_elem_of_delete_inv.
Qed.

(** With results that arrive, the pool hands back the lists in the order
    of the paths, whatever the order of its workers. *)
Lemma pool_map_delivering paths chunk pick processes :
  Failing.only_Exceptions w paths → chunk ⊆ paths →
  (∀ results,
     (∀ r, r ∈ results → ∃ path, path ∈ paths ∧ ftg path = Return r) →
     send w results = Arrives) →
  Failing.pool_map w pick processes chunk = Handed (ftg0 <$> chunk).
Proof.
  intros Honly Hsub Hsend. unfold Failing.pool_map.
  rewrite complete_delivering.
  - simpl. pose proof (pool_map_fmap pick ftg0 processes chunk) as Hmap.
    unfold Pool.map in Hmap. by rewrite Hmap.
  - intros i x [j [y [Heq Hy]]]%elem_of_lookup_imap. simplify_eq.
    rewrite lookup_chunks_of in Hy. case_decide; [|done]. simplify_eq.
    assert (take (Pool.chunksize processes (length chunk))
              (drop (j * Pool.chunksize processes (length chunk)) chunk)
            ⊆ paths) as Hx.
    { etrans; [apply subseteq_take|]. etrans; [apply subseteq_drop|done]. }
    unfold Failing.worker. rewrite (mapstar_ftg paths) by done.
    rewrite Hsend; [done|].
    intros r [path [-> Hin]]%list_elem_of_fmap. exists path.
    split; [by apply Hx|]. eapply ftg_returns; [done|]. by apply Hx.
Qed.

(** Where only [Exception]s are raised and the pool delivers, a turn of
    the loop over the chunks comes to the loop over the items and the
    commit, from the same state with one process and with more. *)
Lemma chunk_body_lists paths chunk processes verbose k s :
  Failing.only_Exceptions w paths → Failing.delivers w processes paths →
  chunk ⊆ paths →
  Failing.chunk_body w processes verbose k s chunk
  = Failing.rest_of_chunk w verbose
      (State (add_total_pdbs (length chunk) (db_stats s))
         (calls s ++ [map_gather chunk]))
      (ftg0 <$> chunk).
Proof.
  intros Honly Hdel Hsub. unfold Failing.chunk_body.
  case_decide as Hp.
  - destruct (Hdel Hp) as [-> Hsend].
    by rewrite (pool_map_delivering paths).
  - by rewrite (mapstar_ftg paths).
Qed.

End failing_facts.



(** ** Runs that nothing disturbs *)

Section undisturbed.
Context {dict row exc : Type} (w : world dict row exc).
Context (Hcalm : Failing.calm w).
Implicit Types (s : state row) (paths chunk : list string)
  (items : list (item dict exc)).

Local Abbreviation gather := (gather_loops_from_pdb w).
Local Abbreviation ftg0 := (fault_tolerant_gather (gather_loops_from_pdb w)).
Local Abbreviation rows := (Raising.rows (Loops w)).
Local Abbreviation accepted := (Raising.accepted (Loops w)).
Local Abbreviation item_calls := (Raising.item_calls (str w) (Loops w)).
Local Abbreviation chunk_calls :=
  (Raising.chunk_calls (str w) (gather_loops_from_pdb w) (Loops w)).

Lemma call_calm (c : call row) s : Failing.call_ w c s = Returns (perform c s).
Proof. unfold Failing.call_. by rewrite Hcalm. Qed.

(** Where no call raises, the loop over the items is left by the
    constructor alone. *)
Lemma for_loops_calm verbose items : ∀ s,
  Failing.for_loops w verbose s items
  = Failing.of_ending (Raising.for_loops (str w) (Loops w) verbose s items).
Proof.
  induction items as [|[loop|path ex] items IH]; intros s; [done|..];
    cbn [Failing.for_loops Raising.for_loops Failing.loop_body
         Raising.loop_body].
  - destruct (Loops w loop) as [r|e]; [|done].
    rewrite call_calm. cbn [and_then]. apply IH.
  - rewrite call_calm. cbn [and_then]. apply IH.
Qed.

Lemma chunk_body_undisturbed paths chunk processes verbose k s :
  Failing.only_Exceptions w paths → Failing.delivers w processes paths →
  chunk ⊆ paths → accepted (gathered gather chunk) →
  Failing.chunk_body w processes verbose k s chunk
  = Returns (State
      (Stats (total_pdbs (db_stats s) + length chunk)
             (succeeded (db_stats s) + length (gathered gather chunk))
             (failed (db_stats s) + length (raising gather chunk))
             (total_loops (db_stats s) + length (gathered gather chunk)
                + length (raising gather chunk)))
      (calls s ++ chunk_calls verbose chunk)).
Proof.
  intros Honly Hdel Hsub Hacc.
  rewrite (chunk_body_lists w paths) by done.
  unfold Failing.rest_of_chunk.
  rewrite for_loops_calm, for_loops_accepted by (by rewrite dicts_chain).
  cbn [Failing.of_ending and_then]. rewrite call_calm.
  unfold perform, Raising.chunk_calls. simpl.
  rewrite dicts_tuples_length, dicts_chain, tuples_chain.
  rewrite <-!app_assoc. simpl. do 3 f_equal. lia.
Qed.

Lemma for_chunks_undisturbed paths processes verbose
    (chunks : list (list string)) : ∀ k s,
  Failing.only_Exceptions w paths → Failing.delivers w processes paths →
  (∀ chunk, chunk ∈ chunks → chunk ⊆ paths) →
  accepted (gathered gather (concat chunks)) →
  Failing.for_chunks w processes verbose k s chunks
  = Returns (State
      (Stats (total_pdbs (db_stats s) + length (concat chunks))
             (succeeded (db_stats s) + length (gathered gather (concat chunks)))
             (failed (db_stats s) + length (raising gather (concat chunks)))
             (total_loops (db_stats s)
                + length (gathered gather (concat chunks))
                + length (raising gather (concat chunks))))
      (calls s ++ concat (chunk_calls verbose <$> chunks))).
Proof.
  induction chunks as [|chunk chunks IH]; intros k [[????] cs] Honly Hdel Hsub Hacc.
  - simpl. rewrite !Nat.add_0_r, app_nil_r. done.
  - cbn [concat] in Hacc. rewrite gathered_app in Hacc.
    apply accepted_app in Hacc as [Hacc1 Hacc2].
    cbn [Failing.for_chunks].
    rewrite (chunk_body_undisturbed paths) by (try done; apply Hsub; by left).
    cbn [and_then].
    rewrite IH by (try done; intros c Hc; apply Hsub; by right).
    cbn [concat fmap list_fmap db_stats calls total_pdbs succeeded failed
         total_loops].
    rewrite gathered_app, raising_app, !length_app, <-app_assoc.
    do 2 f_equal. f_equal; lia.
Qed.

(** The calls for a chunk none of whose files raises. *)
Lemma item_calls_no_tuple verbose items :
  tuples items = [] →
  item_calls verbose items = session_add <$> rows (dicts items).
Proof.
  induction items as [|[loop|path ex] items IH]; [done| |done].
  intros Hnone. change (IsDict loop :: items) with ([IsDict loop] ++ items).
  rewrite item_calls_app, dicts_app, rows_app, fmap_app, IH by done.
  f_equal. unfold Raising.item_calls, Raising.rows. simpl.
  by destruct (Loops w loop).
Qed.

Lemma chunk_calls_no_raise verbose chunk :
  raising gather chunk = [] →
  chunk_calls verbose chunk
  = map_gather chunk
      :: (session_add <$> rows (gathered gather chunk)) ++ [session_commit].
Proof.
  intros Hnone. unfold Raising.chunk_calls.
  by rewrite item_calls_no_tuple, dicts_chain by (by rewrite tuples_chain).
Qed.

(** The run that nothing disturbs returns, with the statistics and the
    calls of the paths. *)
Lemma process_undisturbed paths output_path processes verbose :
  Failing.only_Exceptions w paths → Failing.delivers w processes paths →
  Failing.accepts w paths →
  Failing.process_pdb_files w paths output_path processes verbose
  = Returns (State (final_stats gather paths)
      ([create_all output_path]
         ++ concat (chunk_calls verbose <$> data_chunks paths)
         ++ [print (summary (final_stats gather paths))])).
Proof.
  intros Honly Hdel Hacc. unfold Failing.process_pdb_files.
  rewrite call_calm. cbn [and_then].
  assert (concat (data_chunks paths) = paths) as Hcat
    by (rewrite data_chunks_chunks_of; apply concat_chunks_of; lia).
  rewrite (for_chunks_undisturbed paths)
    by first [done|intros c; apply chunk_subseteq|by rewrite Hcat].
  cbn [and_then]. rewrite call_calm, Hcat.
  unfold perform, final_stats. simpl. done.
Qed.

(** What the calls of such a run show. *)
Lemma views_undisturbed paths output_path verbose (line : string) :
  let cs : list (call row) :=
    [create_all output_path]
      ++ concat (chunk_calls verbose <$> data_chunks paths)
      ++ [print line] in
  printed cs = (notice_of (str w) verbose <$> raising gather paths) ++ [line]
  ∧ mapped cs = data_chunks paths
  ∧ commits cs = length (data_chunks paths)
  ∧ persisted cs = rows (gathered gather paths).
Proof.
  intros cs. unfold cs.
  assert (concat (data_chunks paths) = paths) as Hcat
    by (rewrite data_chunks_chunks_of; apply concat_chunks_of; lia).
  destruct (views_chunks_raising (str w) gather (Loops w) verbose
              (data_chunks paths)) as (Hp & Hm & Hc).
  rewrite Hcat in Hp. split_and!.
  - rewrite !printed_app, Hp. done.
  - rewrite !mapped_app, Hm. simpl. by rewrite app_nil_r.
  - rewrite !commits_app, Hc.
    change (commits [create_all output_path]) with 0.
    change (commits [print line]) with 0. lia.
  - unfold persisted. rewrite !foldl_app. cbn [foldl session_step app].
    rewrite session_chunks_raising, Hcat. done.
Qed.

End undisturbed.


(** ** The run in which nothing fails

    In a world where the constructor gives the loop for its row, no call
    raises, only [Exception]s are raised on the paths and the pool
    delivers, the run is the run of [process_pdb_files] at the head of
    this file. *)

Lemma chunk_calls_with_Return {dict exc : Type} (w : world dict dict exc)
    (verbose : bool) (chunk : list string) :
  (∀ loop, Loops w loop = Return loop) →
  Raising.chunk_calls (str w) (gather_loops_from_pdb w) (Loops w) verbose chunk
  = chunk_calls (str w) (gather_loops_from_pdb w) verbose chunk.
Proof.
  intros HLoops. unfold Raising.chunk_calls, chunk_calls. do 2 f_equal.
  induction (Py.chain _) as [|[loop|path ex] items IH]; [done|..];
    unfold Raising.item_calls in *; simpl; rewrite ?HLoops; simpl;
    by f_equal.
Qed.

Lemma run_where_nothing_fails {dict exc : Type} (w : world dict dict exc)
    (pick0 : nat → nat → nat) (paths : list string) (output_path : string)
    (processes : Z) (verbose : bool) :
  (∀ loop, Loops w loop = Return loop) → Failing.calm w →
  Failing.only_Exceptions w paths → Failing.delivers w processes paths →
  Some (Failing.process_pdb_files w paths output_path processes verbose)
  = Returns <$> process_pdb_files (str w) (gather_loops_from_pdb w) pick0
                  paths output_path processes verbose.
Proof.
  intros HLoops Hcalm Honly Hdel.
  rewrite process_undisturbed, process_pdb_files_eq; [|done..|].
  - cbn [fmap option_fmap option_map app]. do 6 f_equal.
    apply list_fmap_ext. intros _ chunk _. by apply chunk_calls_with_Return.
  - apply Forall_forall. intros loop _. by exists loop.
Qed.

(** ** Runs in any world *)

Section any_world.
Context {dict row exc : Type} (w : world dict row exc).
Implicit Types (s : state row) (paths chunk : list string)
  (items : list (item dict exc)).

Lemma ends_in_impl {S E} (P Q P' Q' : S → Prop) (r : run_end S E) :
  (∀ x, P x → P' x) → (∀ x, Q x → Q' x) → ends_in P Q r → ends_in P' Q' r.
Proof. destruct r; simpl; auto. Qed.

Lemma progress_refl s : Failing.progress s s [] 0 0 0.
Proof. unfold Failing.progress. rewrite app_nil_r. split_and!; first [done|lia]. Qed.

Lemma progress_trans s s1 s2 chunks1 chunks2 p1 p2 c1 c2 d :
  Failing.progress s s1 chunks1 p1 c1 0 →
  Failing.progress s1 s2 chunks2 p2 c2 d →
  Failing.progress s s2 (chunks1 ++ chunks2) (p1 + p2) (c1 + c2) d.
Proof.
  unfold Failing.progress. intros (Hm1 & Hp1 & Hc1 & Hd1) (Hm2 & Hp2 & Hc2 & Hd2).
  rewrite Hm2, Hm1, app_assoc. split_and!; first [done|lia].
Qed.

Lemma progress_perform s s' chunks p c d (cl : call row) :
  Failing.progress s s' chunks p c d →
  Failing.progress s (perform cl s') (chunks ++ mapped [cl]) p
    (c + commits [cl]) d.
Proof.
  unfold Failing.progress, perform. intros (Hm & Hp & Hc & Hd). simpl.
  rewrite mapped_app, commits_app, Hm, Hc, app_assoc.
  split_and!; first [done|lia].
Qed.

(** A call that returns is made and changes no counter; one that raises
    leaves the state as it was. *)
Lemma call_ends (c : call row) s :
  ends_in (λ s', s' = perform c s) (λ s', s' = s) (Failing.call_ w c s).
Proof. unfold Failing.call_. by destruct (raises w _ _). Qed.

Lemma loop_body_progress verbose s (loop : item dict exc) :
  ends_in (λ s', Failing.progress s s' [] 0 0 0)
    (λ s', ∃ d, d ≤ 1 ∧ Failing.progress s s' [] 0 0 d)
    (Failing.loop_body w verbose s loop).
Proof.
  destruct s as [[tp su fa tl] cs]. unfold Failing.loop_body.
  destruct loop as [loop|path ex].
  - destruct (Loops w loop) as [r|e].
    + unfold Failing.call_. destruct (raises w _ _); simpl.
      * exists 1. unfold Failing.progress. simpl. rewrite app_nil_r. split_and!; first [done|lia].
      * unfold Failing.progress. simpl.
        rewrite mapped_app, commits_app. simpl. split_and!; first [done|lia].
    + simpl. exists 1. unfold Failing.progress. simpl. rewrite app_nil_r. split_and!; first [done|lia].
  - unfold Failing.call_. destruct (raises w _ _); simpl.
    + exists 0. unfold Failing.progress. simpl. rewrite app_nil_r. split_and!; first [done|lia].
    + unfold Failing.progress. simpl.
      rewrite mapped_app, commits_app. simpl. split_and!; first [done|lia].
Qed.

Lemma for_loops_progress verbose items : ∀ s,
  ends_in (λ s', Failing.progress s s' [] 0 0 0)
    (λ s', ∃ d, d ≤ 1 ∧ Failing.progress s s' [] 0 0 d)
    (Failing.for_loops w verbose s items).
Proof.
  induction items as [|loop items IH]; intros s.
  - simpl. apply progress_refl.
  - cbn [Failing.for_loops].
    pose proof (loop_body_progress verbose s loop) as Hbody.
    destruct (Failing.loop_body w verbose s loop) as [s1|s1 e|s1];
      cbn [and_then ends_in] in *; [|done..].
    eapply ends_in_impl; [| |apply IH].
    + intros s2 H2. apply (progress_trans _ _ _ _ _ _ _ _ _ _ Hbody H2).
    + intros s2 (d & Hd & H2). exists d. split; [done|].
      apply (progress_trans _ _ _ _ _ _ _ _ _ _ Hbody H2).
Qed.

Lemma rest_of_chunk_progress verbose s
    (loop_lists : list (list (item dict exc))) :
  ends_in (λ s', Failing.progress s s' [] 0 1 0)
    (λ s', ∃ d, d ≤ 1 ∧ Failing.progress s s' [] 0 0 d)
    (Failing.rest_of_chunk w verbose s loop_lists).
Proof.
  unfold Failing.rest_of_chunk.
  pose proof (for_loops_progress verbose (Py.chain loop_lists) s) as Hloops.
  destruct (Failing.for_loops w verbose s _) as [s1|s1 e|s1];
    cbn [and_then ends_in] in *; [|done..].
  pose proof (call_ends session_commit s1) as Hcommit.
  destruct (Failing.call_ w session_commit s1) as [s2|s2 e|s2];
    cbn [ends_in] in *; subst s2.
  - apply (progress_perform _ _ _ _ _ _ session_commit) in Hloops.
    by rewrite app_nil_r in Hloops.
  - exists 0. split; [lia|done].
  - exists 0. split; [lia|done].
Qed.

Lemma progress_marker s chunk p :
  Failing.progress s
    (State (add_total_pdbs p (db_stats s)) (calls s ++ [map_gather chunk]))
    [chunk] p 0 0.
Proof.
  unfold Failing.progress. simpl. rewrite mapped_app, commits_app. simpl. split_and!; first [done|lia].
Qed.

Lemma stopped_one s s' chunk chunks p d :
  p ≤ length chunk → d ≤ 1 → Failing.progress s s' [chunk] p 0 d →
  Failing.stopped s s' (chunk :: chunks).
Proof.
  intros Hp Hd Hprog. exists [chunk], p, 0, d.
  split_and!;
    first [done|by apply prefix_cons, prefix_nil
          |simpl; rewrite ?app_nil_r; lia].
Qed.

Lemma chunk_body_progress processes verbose k s chunk chunks :
  ends_in (λ s', Failing.progress s s' [chunk] (length chunk) 1 0)
    (λ s', Failing.stopped s s' (chunk :: chunks))
    (Failing.chunk_body w processes verbose k s chunk).
Proof.
  assert (∀ lists p, p = length chunk →
    ends_in (λ s', Failing.progress s s' [chunk] (length chunk) 1 0)
      (λ s', Failing.stopped s s' (chunk :: chunks))
      (Failing.rest_of_chunk w verbose
         (State (add_total_pdbs p (db_stats s))
            (calls s ++ [map_gather chunk])) lists)) as Hrest.
  { intros lists p ->.
    eapply ends_in_impl; [| |apply rest_of_chunk_progress].
    - intros s' H'.
      apply (progress_trans _ _ _ _ _ _ _ _ _ _
               (progress_marker s chunk (length chunk))) in H'.
      by rewrite Nat.add_0_r in H'.
    - intros s' (d & Hd & H').
      apply (progress_trans _ _ _ _ _ _ _ _ _ _
               (progress_marker s chunk (length chunk))) in H'.
      rewrite Nat.add_0_r in H'. by eapply stopped_one. }
  unfold Failing.chunk_body. case_decide.
  - destruct (new_pool w processes) as [e|].
    + simpl. exists [], 0, 0, 0.
      split_and!;
        first [apply prefix_nil|apply progress_refl|simpl; lia].
    + destruct (Failing.pool_map w _ _ _) as [lists|e|].
      * by apply Hrest.
      * simpl. eapply (stopped_one _ _ _ _ 0 0); [lia|lia|].
        apply (progress_perform _ _ _ _ _ _ (map_gather chunk)
                 (progress_refl s)).
      * simpl. eapply (stopped_one _ _ _ _ 0 0); [lia|lia|].
        apply (progress_perform _ _ _ _ _ _ (map_gather chunk)
                 (progress_refl s)).
  - destruct (Failing.mapstar _ chunk) as [lists|e].
    + by apply Hrest.
    + simpl. eapply (stopped_one _ _ _ _ (length chunk) 0); [lia|lia|].
      exact (progress_marker s chunk (length chunk)).
Qed.

Lemma stopped_later s s1 s2 chunk chunks :
  Failing.progress s s1 [chunk] (length chunk) 1 0 →
  Failing.stopped s1 s2 chunks →
  Failing.stopped s s2 (chunk :: chunks).
Proof.
  intros H1 (pre & p & c & d & Hpre & Hp & Hc & Hd & H2).
  exists (chunk :: pre), (length chunk + p), (1 + c), d.
  split_and!;
    first [by apply prefix_cons|done
          |apply (progress_trans _ _ _ _ _ _ _ _ _ _ H1 H2)
          |simpl; rewrite ?length_app; lia].
Qed.

Lemma for_chunks_progress processes verbose (chunks : list (list string)) :
  ∀ k s,
    ends_in
      (λ s', Failing.progress s s' chunks (length (concat chunks))
               (length chunks) 0)
      (λ s', Failing.stopped s s' chunks)
      (Failing.for_chunks w processes verbose k s chunks).
Proof.
  induction chunks as [|chunk chunks IH]; intros k s.
  - simpl. apply progress_refl.
  - cbn [Failing.for_chunks].
    pose proof (chunk_body_progress processes verbose k s chunk chunks)
      as Hbody.
    destruct (Failing.chunk_body w processes verbose k s chunk)
      as [s1|s1 e|s1]; cbn [and_then ends_in] in *; [|done..].
    eapply ends_in_impl; [| |apply IH].
    + intros s2 H2.
      pose proof (progress_trans _ _ _ _ _ _ _ _ _ _ Hbody H2) as H.
      simpl. by rewrite length_app.
    + intros s2 H2. by eapply stopped_later.
Qed.

(** Every run, in every world: it has mapped the chunks of the paths, or
    the first of them when it does not return. *)
Lemma process_progress paths output_path processes verbose :
  ends_in
    (λ s', Failing.progress (State (Stats 0 0 0 0) []) s' (data_chunks paths)
             (length paths) (length (data_chunks paths)) 0)
    (λ s', Failing.stopped (State (Stats 0 0 0 0) []) s' (data_chunks paths))
    (Failing.process_pdb_files w paths output_path processes verbose).
Proof.
  assert (concat (data_chunks paths) = paths) as Hcat
    by (rewrite data_chunks_chunks_of; apply concat_chunks_of; lia).
  unfold Failing.process_pdb_files. unfold Failing.call_ at 1.
  destruct (raises w _ _) as [e|]; cbn [and_then ends_in].
  { exists [], 0, 0, 0.
    split_and!; first [apply prefix_nil|apply progress_refl|simpl; lia]. }
  set (s0 := State (Stats 0 0 0 0) []).
  assert (Failing.progress s0 (perform (create_all output_path) s0) [] 0 0 0)
    as H0
    by exact (progress_perform _ _ _ _ _ _ (create_all output_path)
                (progress_refl s0)).
  pose proof (for_chunks_progress processes verbose (data_chunks paths) 0
                (perform (create_all output_path) s0)) as Hchunks.
  destruct (Failing.for_chunks w processes verbose 0 _ _) as [s1|s1 e|s1];
    cbn [and_then ends_in] in *.
  - pose proof (progress_trans _ _ _ _ _ _ _ _ _ _ H0 Hchunks) as H1.
    rewrite Hcat in H1. cbn [app Nat.add] in H1.
    pose proof (call_ends (print (summary (db_stats s1))) s1) as Hprint.
    destruct (Failing.call_ w _ s1) as [s2|s2 e|s2]; cbn [ends_in] in *;
      subst s2.
    + apply (progress_perform _ _ _ _ _ _ (print (summary (db_stats s1))))
        in H1.
      by rewrite app_nil_r, Nat.add_0_r in H1.
    + exists (data_chunks paths), (length paths),
        (length (data_chunks paths)), 0.
      split_and!; [done|by rewrite Hcat|lia|lia|lia|done].
    + exists (data_chunks paths), (length paths),
        (length (data_chunks paths)), 0.
      split_and!; [done|by rewrite Hcat|lia|lia|lia|done].
  - destruct Hchunks as (pre & p & c & d & Hpre & Hp & Hc & Hd & H2).
    exists pre, p, c, d.
    split_and!;
      first [done|lia|apply (progress_trans _ _ _ _ _ _ _ _ _ _ H0 H2)].
  - destruct Hchunks as (pre & p & c & d & Hpre & Hp & Hc & Hd & H2).
    exists pre, p, c, d.
    split_and!;
      first [done|lia|apply (progress_trans _ _ _ _ _ _ _ _ _ _ H0 H2)].
Qed.

End any_world.

Section any_run.
Context {dict row exc : Type} (w : world dict row exc).
Implicit Types (s : state row) (paths chunk : list string).

(** What every run has come to, in terms of the state it starts from. *)
Lemma run_progress paths output_path processes verbose :
  let r := Failing.process_pdb_files w paths output_path processes verbose in
  ∃ pre p c d,
    pre `prefix_of` data_chunks paths ∧ p ≤ length (concat pre)
    ∧ c ≤ length pre ≤ c + 1 ∧ d ≤ 1
    ∧ mapped (calls (state_at r)) = pre
    ∧ total_pdbs (db_stats (state_at r)) = p
    ∧ commits (calls (state_at r)) = c
    ∧ total_loops (db_stats (state_at r))
      = succeeded (db_stats (state_at r)) + failed (db_stats (state_at r)) + d
    ∧ (∀ s, r = Returns s →
         pre = data_chunks paths ∧ p = length paths
         ∧ c = length (data_chunks paths) ∧ d = 0).
Proof.
  intros r.
  pose proof (process_progress w paths output_path processes verbose) as H.
  fold r in H.
  assert (concat (data_chunks paths) = paths) as Hcat
    by (rewrite data_chunks_chunks_of; apply concat_chunks_of; lia).
  destruct r as [s|s e|s]; cbn [ends_in state_at] in *.
  - destruct H as (Hm & Hp & Hc & Hd). simpl in *.
    exists (data_chunks paths), (length paths), (length (data_chunks paths)), 0.
    split_and!; first [done|rewrite ?Hcat; lia].
  - destruct H as (pre & p & c & d & Hpre & Hple & Hcle & Hdle
                   & Hm & Hp & Hc & Hd).
    simpl in *. exists pre, p, c, d.
    split_and!; first [done|lia].
  - destruct H as (pre & p & c & d & Hpre & Hple & Hcle & Hdle
                   & Hm & Hp & Hc & Hd).
    simpl in *. exists pre, p, c, d.
    split_and!; first [done|lia].
Qed.

(** The loop over the items and the commit leave [total_pdbs] as it is,
    however they end. *)
Lemma rest_of_chunk_total_pdbs verbose s
    (loop_lists : list (list (item dict exc))) :
  total_pdbs (db_stats (state_at (Failing.rest_of_chunk w verbose s loop_lists)))
  = total_pdbs (db_stats s).
Proof.
  pose proof (rest_of_chunk_progress w verbose s loop_lists) as H.
  destruct (Failing.rest_of_chunk w verbose s loop_lists) as [s'|s' e|s'];
    cbn [ends_in state_at] in *.
  - destruct H as (_ & Hp & _). lia.
  - destruct H as (d & _ & _ & Hp & _). lia.
  - destruct H as (d & _ & _ & Hp & _). lia.
Qed.

(** A turn of the loop over the chunks counts the paths of its chunk in
    [total_pdbs], all at once; with a pool, not when the lists do not
    come. *)
Lemma chunk_body_total_pdbs processes verbose k s chunk :
  let r := Failing.chunk_body w processes verbose k s chunk in
  total_pdbs (db_stats (state_at r)) = total_pdbs (db_stats s) + length chunk
  ∨ ((1 < processes)%Z
     ∧ total_pdbs (db_stats (state_at r)) = total_pdbs (db_stats s)
     ∧ ∀ s', r ≠ Returns s').
Proof.
  unfold Failing.chunk_body. case_decide as Hp.
  - destruct (new_pool w processes) as [e|]; [by right|].
    destruct (Failing.pool_map w _ _ _) as [lists|e|]; [|by right..].
    left. by rewrite rest_of_chunk_total_pdbs.
  - left. destruct (Failing.mapstar _ chunk) as [lists|e]; [|done].
    by rewrite rest_of_chunk_total_pdbs.
Qed.

End any_run.

(** ** Runs that return, in any world *)

Section returning.
Context {dict row exc : Type} (w : world dict row exc).
Implicit Types (s : state row) (paths chunk : list string)
  (items : list (item dict exc)).

Local Abbreviation gather := (gather_loops_from_pdb w).
Local Abbreviation ftg0 := (fault_tolerant_gather (gather_loops_from_pdb w)).
Local Abbreviation ftg := (Failing.fault_tolerant_gather w).
Local Abbreviation rows := (Raising.rows (Loops w)).
Local Abbreviation accepted := (Raising.accepted (Loops w)).
Local Abbreviation item_calls := (Raising.item_calls (str w) (Loops w)).
Local Abbreviation chunk_calls :=
  (Raising.chunk_calls (str w) (gather_loops_from_pdb w) (Loops w)).

(** What [fault_tolerant_gather] returns is the list of the runs above. *)
Lemma ftg_Return path l : ftg path = Return l → l = ftg0 path.
Proof.
  unfold Failing.fault_tolerant_gather, fault_tolerant_gather.
  destruct (gather path) as [loops|e]; [by intros [= <-]|].
  destruct (is_Exception w e); [by intros [= <-]|done].
Qed.

Lemma mapstar_ftg_Return x : ∀ rs,
  Failing.mapstar ftg x = Return rs → rs = ftg0 <$> x.
Proof.
  induction x as [|path x IH]; intros rs; simpl; [by intros [= <-]|].
  destruct (ftg path) as [l|e] eqn:Hl; [|done].
  destruct (Failing.mapstar ftg x) as [ls|e]; [|done].
  intros [= <-]. by rewrite (ftg_Return _ _ Hl), (IH ls).
Qed.

(** What it raises is what [gather_loops_from_pdb] raised, no
    [Exception]. *)
Lemma ftg_Raise path e :
  ftg path = Raise e → gather path = Raise e ∧ is_Exception w e = false.
Proof.
  unfold Failing.fault_tolerant_gather.
  destruct (gather path) as [loops|e']; [done|].
  destruct (is_Exception w e') eqn:He; [done|]. by intros [= <-].
Qed.




Lemma worker_Results x rs :
  Failing.worker w x = Results rs → rs = ftg0 <$> x.
Proof.
  unfold Failing.worker.
  destruct (Failing.mapstar ftg x) as [ls|e] eqn:Hls.
  - destruct (send w ls); [|done..]. intros [= <-].
    by apply mapstar_ftg_Return.
  - destruct (is_Exception w e); [|done]. by destruct (send_exception w e).
Qed.

(** Once a task has failed the result stays failed. *)
Lemma complete_failed pick size number_left : ∀ outstanding r0 r,
  _success r0 = false →
  Failing.complete w pick size number_left outstanding r0 = Some r →
  _success r = false.
Proof.
  induction number_left as [|n IH]; intros outstanding r0 r Hf; simpl.
  - by intros [= <-].
  - destruct (outstanding !! _) as [[i x]|]; [|by intros [= <-]].
    destruct (Failing.worker w x) as [rs|e|]; [| |done];
      apply IH; simpl; by rewrite Hf.
Qed.

(** A result that succeeds holds what the function returns on the tasks. *)
Lemma complete_succeeded pick size number_left : ∀ outstanding value err r,
  Failing.complete w pick size number_left outstanding
    (MapResult true value err) = Some r →
  _success r = true →
  r = MapResult true
        (Pool.complete pick ftg0 size number_left outstanding value) err.
Proof.
  induction number_left as [|n IH]; intros outstanding value err r; simpl.
  - by intros [= <-].
  - destruct (outstanding !! _) as [[i x]|]; [|by intros [= <-]].
    destruct (Failing.worker w x) as [rs|e|] eqn:Hw; [| |done].
    + apply worker_Results in Hw as ->. simpl.
      rewrite <-list_fmap_compose. apply IH.
    + simpl. intros Hc Hs.
      apply complete_failed in Hc; [|done]. by rewrite Hc in Hs.
Qed.

Lemma pool_map_Handed pick processes chunk lists :
  Failing.pool_map w pick processes chunk = Handed lists →
  lists = ftg0 <$> chunk.
Proof.
  unfold Failing.pool_map.
  destruct (Failing.complete w pick _ _ _ _) as [r|] eqn:Hc; [|done].
  destruct (_success r) eqn:Hs; [|by destruct (_error r)].
  apply complete_succeeded in Hc as ->; [|done]. simpl.
  pose proof (pool_map_fmap pick ftg0 processes chunk) as Hmap.
  unfold Pool.map in Hmap. rewrite Hmap. by intros [= <-].
Qed.

(** The loop over the items returns when the constructor returns on every
    loop and no call raises; it has then gone through every item. *)
Lemma for_loops_Returns verbose items : ∀ s s',
  Failing.for_loops w verbose s items = Returns s' →
  accepted (dicts items)
  ∧ s' = State
      (Stats (total_pdbs (db_stats s))
             (succeeded (db_stats s) + length (dicts items))
             (failed (db_stats s) + length (tuples items))
             (total_loops (db_stats s) + length items))
      (calls s ++ item_calls verbose items).
Proof.
  assert (∀ s s', Failing.for_loops w verbose s items = Returns s' →
            accepted (dicts items)
            ∧ Raising.for_loops (str w) (Loops w) verbose s items
              = Returned s') as Hboth.
  { induction items as [|[loop|path ex] items IH]; intros s s';
      cbn [Failing.for_loops Raising.for_loops Failing.loop_body
           Raising.loop_body].
    - intros [= <-]. split; [constructor|done].
    - destruct (Loops w loop) as [r|e] eqn:Hr; [|done].
      unfold Failing.call_. destruct (raises w _ _); [done|].
      cbn [and_then]. intros [Hacc Hrun]%IH.
      split; [|done]. constructor; [by exists r|done].
    - unfold Failing.call_. destruct (raises w _ _); [done|].
      cbn [and_then]. intros [Hacc Hrun]%IH. done. }
  intros s s' [Hacc Hrun]%Hboth. split; [done|].
  rewrite for_loops_accepted in Hrun by done. by injection Hrun as <-.
Qed.

Lemma chunk_body_Returns processes verbose k s chunk s' :
  Failing.chunk_body w processes verbose k s chunk = Returns s' →
  accepted (gathered gather chunk)
  ∧ s' = State
      (Stats (total_pdbs (db_stats s) + length chunk)
             (succeeded (db_stats s) + length (gathered gather chunk))
             (failed (db_stats s) + length (raising gather chunk))
             (total_loops (db_stats s) + length (gathered gather chunk)
                + length (raising gather chunk)))
      (calls s ++ chunk_calls verbose chunk).
Proof.
  assert (∀ lists, lists = ftg0 <$> chunk →
    Failing.rest_of_chunk w verbose
      (State (add_total_pdbs (length chunk) (db_stats s))
         (calls s ++ [map_gather chunk])) lists = Returns s' →
    accepted (gathered gather chunk)
    ∧ s' = State
        (Stats (total_pdbs (db_stats s) + length chunk)
           (succeeded (db_stats s) + length (gathered gather chunk))
           (failed (db_stats s) + length (raising gather chunk))
           (total_loops (db_stats s) + length (gathered gather chunk)
              + length (raising gather chunk)))
        (calls s ++ chunk_calls verbose chunk)) as Hrest.
  { intros lists ->. unfold Failing.rest_of_chunk.
    destruct (Failing.for_loops w verbose _ _) as [s1|s1 e|s1] eqn:Hloops;
      [|done..].
    apply for_loops_Returns in Hloops as [Hacc ->].
    cbn [and_then]. unfold Failing.call_. destruct (raises w _ _); [done|].
    intros [= <-]. rewrite dicts_chain in Hacc. split; [done|].
    unfold perform, Raising.chunk_calls. simpl.
    rewrite dicts_tuples_length, dicts_chain, tuples_chain.
    rewrite <-!app_assoc. simpl. do 2 f_equal. lia. }
  unfold Failing.chunk_body. case_decide.
  - destruct (new_pool w processes); [done|].
    destruct (Failing.pool_map w _ _ _) as [lists|e|] eqn:Hpool; [|done..].
    apply Hrest. by eapply pool_map_Handed.
  - destruct (Failing.mapstar _ chunk) as [lists|e] eqn:Hmap; [|done].
    apply Hrest. by apply mapstar_ftg_Return.
Qed.

Lemma for_chunks_Returns processes verbose (chunks : list (list string)) :
  ∀ k s s',
    Failing.for_chunks w processes verbose k s chunks = Returns s' →
    accepted (gathered gather (concat chunks))
    ∧ s' = State
        (Stats (total_pdbs (db_stats s) + length (concat chunks))
           (succeeded (db_stats s) + length (gathered gather (concat chunks)))
           (failed (db_stats s) + length (raising gather (concat chunks)))
           (total_loops (db_stats s)
              + length (gathered gather (concat chunks))
              + length (raising gather (concat chunks))))
        (calls s ++ concat (chunk_calls verbose <$> chunks)).
Proof.
  induction chunks as [|chunk chunks IH]; intros k [[????] cs] s'.
  - simpl. intros [= <-]. split; [constructor|].
    by rewrite !Nat.add_0_r, app_nil_r.
  - cbn [Failing.for_chunks].
    destruct (Failing.chunk_body w processes verbose k _ chunk)
      as [s1|s1 e|s1] eqn:Hbody; [|done..].
    apply chunk_body_Returns in Hbody as [Hacc1 ->].
    cbn [and_then]. intros [Hacc2 ->]%IH.
    cbn [concat]. rewrite gathered_app. split; [by apply accepted_app|].
    cbn [concat fmap list_fmap db_stats calls total_pdbs succeeded failed
         total_loops].
    rewrite raising_app, !length_app, <-app_assoc.
    f_equal. f_equal; lia.
Qed.

(** A run that returns, in whatever world, has gone through every path:
    it ends with the statistics and the calls of the run that nothing
    disturbs. *)
Lemma process_Returns paths output_path processes verbose s :
  Failing.process_pdb_files w paths output_path processes verbose = Returns s →
  Failing.accepts w paths
  ∧ s = State (final_stats gather paths)
      ([create_all output_path]
         ++ concat (chunk_calls verbose <$> data_chunks paths)
         ++ [print (summary (final_stats gather paths))]).
Proof.
  assert (concat (data_chunks paths) = paths) as Hcat
    by (rewrite data_chunks_chunks_of; apply concat_chunks_of; lia).
  unfold Failing.process_pdb_files. unfold Failing.call_ at 1.
  destruct (raises w _ _); [done|]. cbn [and_then].
  destruct (Failing.for_chunks w processes verbose 0 _ _)
    as [s1|s1 e|s1] eqn:Hchunks; [|done..].
  apply for_chunks_Returns in Hchunks as [Hacc ->]. rewrite Hcat in *.
  cbn [and_then]. unfold Failing.call_. destruct (raises w _ _); [done|].
  intros [= <-]. split; [done|].
  unfold perform, final_stats. simpl. done.
Qed.

End returning.

(** When the loop over the chunks returns, every turn of it returned. *)
Lemma for_chunks_Returns_each {dict row exc : Type} (w : world dict row exc)
    processes verbose (chunks : list (list string)) :
  ∀ k (s s' : state row),
    Failing.for_chunks w processes verbose k s chunks = Returns s' →
    ∀ chunk, chunk ∈ chunks →
      ∃ k1 s1 s2,
        Failing.chunk_body w processes verbose k1 s1 chunk = Returns s2.
Proof.
  induction chunks as [|c chunks IH]; intros k s s' Hrun chunk Hin.
  { by apply elem_of_nil in Hin. }
  cbn [Failing.for_chunks] in Hrun.
  destruct (Failing.chunk_body w processes verbose k s c) as [s1|s1 e|s1]
    eqn:Hbody; [|done..].
  apply elem_of_cons in Hin as [->|Hin]; [by exists k, s, s1|].
  by apply (IH _ _ _ Hrun).
Qed.

(** ** A worker that is lost *)

Section lost.
Context {dict row exc : Type} (w : world dict row exc).
Implicit Types (paths chunk x : list string).

Local Abbreviation gather := (gather_loops_from_pdb w).
Local Abbreviation ftg := (Failing.fault_tolerant_gather w).

(** Over paths one of which raises what is no [Exception], the calls of
    [fault_tolerant_gather] are left with what is no [Exception]. *)
Lemma mapstar_ftg_not_Exception x path e :
  path ∈ x → gather path = Raise e → is_Exception w e = false →
  ∃ e', Failing.mapstar ftg x = Raise e' ∧ is_Exception w e' = false.
Proof.
  intros Hin Hraise He. induction x as [|p x IH].
  { by apply elem_of_nil in Hin. }
  simpl. destruct (ftg p) as [l|e0] eqn:Hp.
  - apply elem_of_cons in Hin as [<-|Hin].
    { unfold Failing.fault_tolerant_gather in Hp.
      by rewrite Hraise, He in Hp. }
    destruct (IH Hin) as (e' & -> & He'). by exists e'.
  - exists e0. split; [done|]. by apply ftg_Raise in Hp as [_ ?].
Qed.

(** The worker of such a batch ends, and nothing arrives of the batch. *)
Lemma worker_lost x path e :
  path ∈ x → gather path = Raise e → is_Exception w e = false →
  Failing.worker w x = NoArrival.
Proof.
  intros Hin Hraise He. unfold Failing.worker.
  destruct (mapstar_ftg_not_Exception x path e Hin Hraise He)
    as (e' & -> & ->).
  done.
Qed.

(** With a task of which nothing arrives among those outstanding, the
    result is never complete, whatever the order of the workers. *)
Lemma complete_lost pick size number_left :
  ∀ (outstanding : list (nat * list string)) r,
    length outstanding = number_left →
    (∃ i x, (i, x) ∈ outstanding ∧ Failing.worker w x = NoArrival) →
    Failing.complete w pick size number_left outstanding r = None.
Proof.
  induction number_left as [|n IH]; intros outstanding r Hlen Hlost.
  { destruct Hlost as (i & x & Hin & _).
    apply length_zero_iff_nil in Hlen as ->. by apply elem_of_nil in Hin. }
  simpl.
  assert (pick n mod length outstanding < length outstanding) as Hidx
    by (apply Nat.mod_upper_bound; lia).
  destruct (lookup_lt_is_Some_2 _ _ Hidx) as [[i' x'] Hlookup].
  rewrite Hlookup.
  destruct Hlost as (i & x & Hin & Hx).
  assert (Failing.worker w x' = NoArrival
          ∨ (i, x) ∈ delete (pick n mod length outstanding) outstanding)
    as [->|Hin']; [|done|].
  { rewrite (delete_Permutation _ _ _ Hlookup) in Hin.
    apply elem_of_cons in Hin as [[= <- <-]|Hin]; [by left|by right]. }
  assert (length (delete (pick n mod length outstanding) outstanding) = n)
    as Hlen' by (rewrite length_delete by done; lia).
  destruct (Failing.worker w x'); [| |done]; apply IH; try done;
    by exists i, x.
Qed.

(** With a pool, a file of the chunk that raises what is no [Exception]
    keeps [pool.map] from returning. *)
Lemma pool_map_lost pick processes chunk path e :
  path ∈ chunk → gather path = Raise e → is_Exception w e = false →
  Failing.pool_map w pick processes chunk = Never.
Proof.
  intros Hin Hraise He. unfold Failing.pool_map.
  rewrite complete_lost; [done..|].
  apply list_elem_of_lookup in Hin as [k Hk].
  pose proof (lookup_lt_Some _ _ _ Hk) as Hlt.
  assert (0 < Pool.chunksize processes (length chunk)) as Hs
    by (apply chunksize_pos; lia).
  destruct (chunk_covers _ chunk k Hs Hlt) as (c & Hc & _ & Hpath).
  exists (k / Pool.chunksize processes (length chunk)), c. split.
  - unfold Pool.get_tasks. apply list_elem_of_lookup.
    exists (k / Pool.chunksize processes (length chunk)).
    by rewrite list_lookup_imap, Hc.
  - apply (worker_lost c path e); [|done..].
    rewrite Hk in Hpath. by eapply list_elem_of_lookup_2.
Qed.

End lost.

(** ** The properties of the module *)

(** C1. The claim is that a run ends with [succeeded + failed] equal to
    [total_pdbs], the number of files.  The module adds one to [succeeded]
    for every loop it stages, not for every file: on one file with two
    loops the run ends with [total_pdbs = 1], [succeeded = 2] and
    [failed = 0], and its summary reads "1 PDB files: 2 succeeded". *)
Theorem succeeded_counts_loops_not_files :
  ∃ s, process_pdb_files id Sample.two_loops Sample.scrambled
         ["1abc.pdb"] "loops.db" 1 true = Some s
    ∧ total_pdbs (db_stats s) = 1
    ∧ succeeded (db_stats s) + failed (db_stats s) = 2
    ∧ last (printed (calls s))
      = Some ("Finished processing 1 PDB files:" +:+ nl
              +:+ "2 succeeded, 0 failed, 2 added to database.").
Proof. eexists. split; [vm_compute; reflexivity|]. by vm_compute. Qed.

(** C2. The claim is that a run ends with [total_loops] equal to the
    number of loops of the files that were gathered.  The module adds one
    to [total_loops] before it tells a tuple from a dict, so a file that
    raises counts as a loop: on one malformed file the run stages nothing
    and ends with [total_loops = 1], its summary reading "1 added to
    database". *)
Theorem total_loops_counts_raising_files :
  ∃ s, process_pdb_files id Sample.malformed Sample.scrambled
         ["bad.pdb"] "loops.db" 1 true = Some s
    ∧ gathered Sample.malformed ["bad.pdb"] = []
    ∧ added (calls s) = []
    ∧ persisted (calls s) = []
    ∧ total_loops (db_stats s) = 1
    ∧ last (printed (calls s))
      = Some ("Finished processing 1 PDB files:" +:+ nl
              +:+ "0 succeeded, 1 failed, 1 added to database.").
Proof. eexists. split; [vm_compute; reflexivity|]. by vm_compute. Qed.




(** C4. The claim is that a run over N files of which K raise ends with
    [failed = K] and [succeeded = N - K].  The run returns and [failed] is
    K, but [succeeded] is the number of loops staged: on two files, one
    with three loops and one malformed, the run ends with [failed = 1] and
    [succeeded = 3], not 1. *)
Theorem succeeded_is_not_files_minus_failed :
  ∃ s, process_pdb_files id Sample.mixed Sample.scrambled
         ["1abc.pdb"; "bad.pdb"] "loops.db" 1 true = Some s
    ∧ length (raising Sample.mixed ["1abc.pdb"; "bad.pdb"]) = 1
    ∧ total_pdbs (db_stats s) = 2
    ∧ failed (db_stats s) = 1
    ∧ succeeded (db_stats s) = 3.
Proof. eexists. split; [vm_compute; reflexivity|]. by vm_compute. Qed.

(** C5. [data_chunks] cuts the paths into consecutive chunks of 100, the
    last one alone possibly shorter and none empty: chunk [i] is the 100
    paths from place [100 i] on, every place of the list lies in one chunk
    and in one only, and the chunks put end to end are the list. *)
Theorem data_chunks_partition (paths : list string) :
  concat (data_chunks paths) = paths
  ∧ (∀ i c, data_chunks paths !! i = Some c →
       c = take 100 (drop (i * 100) paths)
       ∧ 0 < length c ≤ 100
       ∧ (S i < length (data_chunks paths) → length c = 100))
  ∧ (∀ i c j, data_chunks paths !! i = Some c → j < length c →
       c !! j = paths !! (i * 100 + j))
  ∧ (∀ k, k < length paths →
       ∃ c, data_chunks paths !! (k / 100) = Some c
            ∧ k mod 100 < length c ∧ c !! (k mod 100) = paths !! k)
  ∧ (∀ i i' c c' j j',
       data_chunks paths !! i = Some c → data_chunks paths !! i' = Some c' →
       j < length c → j' < length c' →
       i * 100 + j = i' * 100 + j' → i = i' ∧ j = j').
Proof.
  rewrite data_chunks_chunks_of. split_and!.
  - apply concat_chunks_of. lia.
  - intros i c Hc. split.
    + rewrite lookup_chunks_of in Hc. case_decide; [|done]. by simplify_eq.
    + apply chunk_length; [lia|done].
  - intros i c j. apply chunk_lookup.
  - intros k Hk. apply chunk_covers; [lia|done].
  - intros i i' c c' j j' Hc Hc' Hj Hj' Heq.
    apply chunk_length in Hc as [[_ Hle] _]; [|lia].
    apply chunk_length in Hc' as [[_ Hle'] _]; [|lia]. lia.
Qed.

Lemma data_chunks_partition_witness :
  data_chunks Sample.paths_250 !! 2 = Some (drop 200 Sample.paths_250)
  ∧ length (drop 200 Sample.paths_250) = 50
  ∧ drop 200 Sample.paths_250 !! 7 = Sample.paths_250 !! 207.
Proof.
  assert (data_chunks Sample.paths_250 !! 2 = Some (drop 200 Sample.paths_250))
    as Hc by (vm_compute; reflexivity).
  split_and!; [exact Hc|vm_compute; reflexivity|].
  apply (proj1 (proj2 (proj2 (data_chunks_partition Sample.paths_250)))
           2 (drop 200 Sample.paths_250) 7 Hc).
  vm_compute. lia.
Defined.




(** Counterexample to C7 as it is claimed.  The claim is that on 250
    files with one loop each the run commits three times and ends with 250
    files succeeded.  The rows are made by the constructor, outside any
    [try], and the commits may raise.  With a constructor that raises on
    the loop of [150.pdb] the run is left in its second chunk, after one
    commit, with 150 succeeded; where the second commit raises, the run is
    left there, after one commit, with 200 succeeded. *)
Lemma run_of_250_files_left_before_its_third_commit :
  length Sample.paths_250 = 250
  ∧ (∀ path, path ∈ Sample.paths_250 →
       ∃ loop, Sample.one_loop path = Return [loop])
  ∧ (∃ s, Failing.process_pdb_files
            (Worlds.quiet Sample.one_loop Cases.Loops_but_150)
            Sample.paths_250 "loops.db" 1 false = Raises s "TypeError"
       ∧ length (mapped (calls s)) = 2
       ∧ commits (calls s) = 1
       ∧ db_stats s = Stats 200 150 0 151)
  ∧ (∃ s, Failing.process_pdb_files Worlds.second_commit_raises
            Sample.paths_250 "loops.db" 1 false
          = Raises s "OperationalError"
       ∧ length (mapped (calls s)) = 2
       ∧ commits (calls s) = 1
       ∧ db_stats s = Stats 200 200 0 200).
Proof.
  split; [reflexivity|].
  split; [intros path _; exists path; reflexivity|].
  split; eexists; (split; [vm_compute; reflexivity|]);
    split_and!; vm_compute; reflexivity.
Qed.

(** C7. On 250 files with one loop each, where the constructor returns
    on every loop, no call on the database or the console raises and the
    pool delivers, the run returns; it maps three chunks, of 100, 100 and
    50 paths, and commits three times, each commit after the rows of its
    chunk are staged and before the next chunk is mapped; it ends with
    [total_pdbs = 250], [succeeded = 250], [failed = 0] and
    [total_loops = 250], and with the 250 rows in the database. *)
Theorem undisturbed_run_of_250_files_commits_three_times
    {dict row exc : Type} (w : world dict row exc)
    (paths : list string) (output_path : string) (processes : Z)
    (verbose : bool)
    (Hlen : length paths = 250)
    (Hone : ∀ path, path ∈ paths →
                    ∃ loop, gather_loops_from_pdb w path = Return [loop])
    (Hcalm : Failing.calm w)
    (Hdel : Failing.delivers w processes paths)
    (Hacc : Failing.accepts w paths) :
  ∃ s c1 c2 c3,
    Failing.process_pdb_files w paths output_path processes verbose
      = Returns s
    ∧ (c1 = take 100 paths ∧ c2 = take 100 (drop 100 paths)
       ∧ c3 = drop 200 paths)
    ∧ (length c1 = 100 ∧ length c2 = 100 ∧ length c3 = 50)
    ∧ (length (Raising.rows (Loops w) (gathered (gather_loops_from_pdb w) c1))
         = 100
       ∧ length (Raising.rows (Loops w)
                   (gathered (gather_loops_from_pdb w) c2)) = 100
       ∧ length (Raising.rows (Loops w)
                   (gathered (gather_loops_from_pdb w) c3)) = 50)
    ∧ mapped (calls s) = [c1; c2; c3]
    ∧ commits (calls s) = 3
    ∧ calls s
      = [create_all output_path]
        ++ (map_gather c1
              :: (session_add
                    <$> Raising.rows (Loops w)
                          (gathered (gather_loops_from_pdb w) c1))
              ++ [session_commit])
        ++ (map_gather c2
              :: (session_add
                    <$> Raising.rows (Loops w)
                          (gathered (gather_loops_from_pdb w) c2))
              ++ [session_commit])
        ++ (map_gather c3
              :: (session_add
                    <$> Raising.rows (Loops w)
                          (gathered (gather_loops_from_pdb w) c3))
              ++ [session_commit])
        ++ [print (summary (Stats 250 250 0 250))]
    ∧ persisted (calls s)
      = Raising.rows (Loops w) (gathered (gather_loops_from_pdb w) c1)
        ++ Raising.rows (Loops w) (gathered (gather_loops_from_pdb w) c2)
        ++ Raising.rows (Loops w) (gathered (gather_loops_from_pdb w) c3)
    ∧ db_stats s = Stats 250 250 0 250.
Proof.
  set (gather := gather_loops_from_pdb w).
  set (c1 := take 100 paths). set (c2 := take 100 (drop 100 paths)).
  set (c3 := drop 200 paths).
  assert (data_chunks paths = [c1; c2; c3]) as Hchunks.
  { unfold data_chunks. rewrite Hlen.
    change (Py.range 0 250 100) with [0; 100; 200].
    cbn [fmap list_fmap]. rewrite !slice_take_drop.
    unfold c1, c2, c3. do 3 f_equal. apply take_ge. rewrite length_drop. lia. }
  assert (paths = c1 ++ c2 ++ c3) as Hpaths.
  { pose proof (concat_chunks_of 100 paths) as Hcat.
    rewrite <-data_chunks_chunks_of, Hchunks in Hcat. simpl in Hcat.
    rewrite app_nil_r in Hcat. symmetry. apply Hcat. lia. }
  assert (length c1 = 100 ∧ length c2 = 100 ∧ length c3 = 50) as Hlens.
  { unfold c1, c2, c3. rewrite !length_take, !length_drop. lia. }
  assert (∀ path, path ∈ c1 ∨ path ∈ c2 ∨ path ∈ c3 →
            ∃ loop, gather path = Return [loop]) as Hc.
  { intros path Hp. apply Hone. rewrite Hpaths, !elem_of_app. done. }
  destruct (all_one_loop (str w) gather verbose c1)
    as (Hl1 & Hr1 & _); [intros; apply Hc; auto|].
  destruct (all_one_loop (str w) gather verbose c2)
    as (Hl2 & Hr2 & _); [intros; apply Hc; auto|].
  destruct (all_one_loop (str w) gather verbose c3)
    as (Hl3 & Hr3 & _); [intros; apply Hc; auto|].
  destruct (all_one_loop (str w) gather verbose paths Hone)
    as (Hl & Hr & _).
  assert (final_stats gather paths = Stats 250 250 0 250) as Hstats.
  { unfold final_stats. by rewrite Hl, Hr, Hlen. }
  assert (Failing.only_Exceptions w paths) as Honly.
  { intros path e Hin Hraise. destruct (Hone path Hin) as [loop Hloop].
    by rewrite Hloop in Hraise. }
  pose proof Hacc as Hacc'. unfold Failing.accepts in Hacc'. fold gather in Hacc'.
  rewrite Hpaths, !gathered_app in Hacc'.
  apply accepted_app in Hacc' as [Ha1 Hacc'].
  apply accepted_app in Hacc' as [Ha2 Ha3].
  pose proof (process_undisturbed w Hcalm paths output_path processes verbose
                Honly Hdel Hacc) as Hrun.
  destruct (views_undisturbed w paths output_path verbose
              (summary (final_stats gather paths)))
    as (_ & Hmapped & Hcommits & Hpersisted).
  fold gather in Hrun, Hmapped, Hcommits, Hpersisted.
  eexists _, c1, c2, c3. split; [exact Hrun|]. cbn [calls db_stats].
  split; [done|]. split; [exact Hlens|].
  split.
  { rewrite !accepted_rows_length by done. by rewrite Hl1, Hl2, Hl3. }
  split_and!.
  - by rewrite Hmapped, Hchunks.
  - by rewrite Hcommits, Hchunks.
  - rewrite Hchunks, Hstats. cbn [fmap list_fmap concat].
    rewrite !(chunk_calls_no_raise w) by done. rewrite app_nil_r.
    repeat (progress (rewrite <-?app_assoc; cbn [app])). done.
  - rewrite Hpersisted, Hpaths at 1. by rewrite !gathered_app, !rows_app.
  - done.
Qed.

Lemma undisturbed_run_of_250_files_commits_three_times_witness :
  length Sample.paths_250 = 250
  ∧ Failing.calm (Worlds.quiet Sample.one_loop Cases.Loops_but_150)
  ∧ ¬ Failing.accepts (Worlds.quiet Sample.one_loop Cases.Loops_but_150)
        Sample.paths_250
  ∧ Failing.accepts (Worlds.quiet Sample.one_loop Return) Sample.paths_250
  ∧ ∃ s,
      Failing.process_pdb_files (Worlds.quiet Sample.one_loop Return)
        Sample.paths_250 "loops.db" 4 false = Returns s
      ∧ mapped (calls s)
        = [take 100 Sample.paths_250; take 100 (drop 100 Sample.paths_250);
           drop 200 Sample.paths_250]
      ∧ commits (calls s) = 3
      ∧ persisted (calls s) = Sample.paths_250
      ∧ db_stats s = Stats 250 250 0 250.
Proof.
  set (w := Worlds.quiet (row := string) Sample.one_loop Return).
  assert (length Sample.paths_250 = 250) as Hlen by reflexivity.
  assert (∀ path, path ∈ Sample.paths_250 →
            ∃ loop, gather_loops_from_pdb w path = Return [loop]) as Hone
    by (intros path _; exists path; reflexivity).
  assert (Failing.calm w) as Hcalm by done.
  assert (Failing.delivers w 4 Sample.paths_250) as Hdel
    by (intros _; split; reflexivity).
  assert (Failing.accepts w Sample.paths_250) as Hacc.
  { apply Forall_forall. intros loop _. by exists loop. }
  split; [exact Hlen|]. split; [done|]. split.
  { intros Hall. unfold Failing.accepts, Raising.accepted in Hall.
    rewrite Forall_forall in Hall. destruct (Hall "150.pdb") as [r Hr].
    - apply (bool_decide_unpack _). vm_compute. exact I.
    - discriminate Hr. }
  split; [exact Hacc|].
  destruct (undisturbed_run_of_250_files_commits_three_times w
              Sample.paths_250 "loops.db" 4 false Hlen Hone Hcalm Hdel Hacc)
    as (s & c1 & c2 & c3 & Hrun & (-> & -> & ->) & _ & _ & Hmapped & Hcommits
        & _ & Hpersisted & Hstats).
  exists s. split; [exact Hrun|]. split; [exact Hmapped|].
  split; [exact Hcommits|]. split; [|exact Hstats].
  rewrite Hpersisted. vm_compute. reflexivity.
Defined.




(** C9. A file with no loop has an empty list in the lists of its chunk:
    the loop over the items goes through the same items with the file in
    the chunk and without it, so no counter of the loop moves and nothing
    is staged or printed for it.  The file is counted in [total_pdbs],
    with the other paths of its chunk, when the lists of the chunk are
    there.  Of two runs that nothing disturbs, one with the file among its
    paths and one without, the first ends with one more [total_pdbs], the
    same [succeeded], [failed] and [total_loops] and the same rows in the
    database. *)
Theorem empty_file_counts_in_total_pdbs_only {dict row exc : Type}
    (w : world dict row exc) (path : string)
    (Hempty : gather_loops_from_pdb w path = Return []) :
  Failing.fault_tolerant_gather w path = Return []
  ∧ (∀ verbose (s : state row) lists,
       Failing.fault_tolerant_gather w path = Return lists →
       Failing.for_loops w verbose s lists = Returns s)
  ∧ (∀ paths1 paths2 loop_lists,
       Failing.mapstar (Failing.fault_tolerant_gather w)
         (paths1 ++ path :: paths2) = Return loop_lists
       ∨ (∃ pick processes,
            Failing.pool_map w pick processes (paths1 ++ path :: paths2)
            = Handed loop_lists) →
       Py.chain loop_lists
       = Py.chain (fault_tolerant_gather (gather_loops_from_pdb w)
                     <$> paths1 ++ paths2))
  ∧ (∀ paths1 paths2 processes verbose k (s : state row),
       let r := Failing.chunk_body w processes verbose k s
                  (paths1 ++ path :: paths2) in
       (∀ s', r = Returns s' →
          total_pdbs (db_stats s')
          = total_pdbs (db_stats s) + (length paths1 + 1 + length paths2))
       ∧ (total_pdbs (db_stats (state_at r))
          = total_pdbs (db_stats s) + (length paths1 + 1 + length paths2)
          ∨ ((1 < processes)%Z
             ∧ total_pdbs (db_stats (state_at r)) = total_pdbs (db_stats s)
             ∧ ∀ s', r ≠ Returns s')))
  ∧ (∀ paths1 paths2 output_path processes verbose,
       Failing.calm w →
       Failing.only_Exceptions w (paths1 ++ path :: paths2) →
       Failing.delivers w processes (paths1 ++ path :: paths2) →
       Failing.accepts w (paths1 ++ path :: paths2) →
       ∃ s s',
         Failing.process_pdb_files w (paths1 ++ path :: paths2) output_path
           processes verbose = Returns s
         ∧ Failing.process_pdb_files w (paths1 ++ paths2) output_path
             processes verbose = Returns s'
         ∧ total_pdbs (db_stats s) = total_pdbs (db_stats s') + 1
         ∧ succeeded (db_stats s) = succeeded (db_stats s')
         ∧ failed (db_stats s) = failed (db_stats s')
         ∧ total_loops (db_stats s) = total_loops (db_stats s')
         ∧ persisted (calls s) = persisted (calls s')).
Proof.
  set (gather := gather_loops_from_pdb w).
  assert (Failing.fault_tolerant_gather w path = Return []) as Hnone
    by (unfold Failing.fault_tolerant_gather; by rewrite Hempty).
  assert (fault_tolerant_gather gather path = []) as Hnone0
    by (unfold fault_tolerant_gather, gather; by rewrite Hempty).
  assert (∀ paths1 paths2,
            gathered gather (paths1 ++ path :: paths2)
            = gathered gather (paths1 ++ paths2)) as Hg.
  { intros paths1 paths2. rewrite !gathered_app. f_equal.
    unfold gathered, gather. simpl. by rewrite Hempty. }
  assert (∀ paths1 paths2,
            raising gather (paths1 ++ path :: paths2)
            = raising gather (paths1 ++ paths2)) as Hr.
  { intros paths1 paths2. rewrite !raising_app. f_equal.
    unfold raising, gather. simpl. by rewrite Hempty. }
  split_and!.
  - done.
  - intros verbose s lists Hlists. rewrite Hnone in Hlists.
    by injection Hlists as <-.
  - intros paths1 paths2 loop_lists Hlists.
    assert (loop_lists
            = fault_tolerant_gather gather <$> paths1 ++ path :: paths2)
      as ->.
    { destruct Hlists as [Hmap|(pick & processes & Hpool)].
      - by apply mapstar_ftg_Return.
      - by eapply pool_map_Handed. }
    unfold Py.chain. rewrite !fmap_app, !concat_app. cbn [fmap list_fmap concat].
    by rewrite Hnone0.
  - intros paths1 paths2 processes verbose k s r.
    assert (length (paths1 ++ path :: paths2)
            = length paths1 + 1 + length paths2) as Hlen
      by (rewrite length_app; simpl; lia).
    pose proof (chunk_body_total_pdbs w processes verbose k s
                  (paths1 ++ path :: paths2)) as Htotal.
    fold r in Htotal. rewrite Hlen in Htotal. split; [|done].
    intros s' Hs'. rewrite Hs' in Htotal. simpl in Htotal.
    destruct Htotal as [?|(_ & _ & Hnot)]; [done|]. by destruct (Hnot s').
  - intros paths1 paths2 output_path processes verbose Hcalm Honly Hdel Hacc.
    subst gather.
    set (run := Raising.chunk_calls (str w) (gather_loops_from_pdb w)
                  (Loops w) verbose).
    assert (∀ p, p ∈ paths1 ++ paths2 → p ∈ paths1 ++ path :: paths2) as Hsub.
    { intros p. rewrite !elem_of_app, elem_of_cons. tauto. }
    exists (State (final_stats (gather_loops_from_pdb w)
                     (paths1 ++ path :: paths2))
              ([create_all output_path]
                 ++ concat (run <$> data_chunks (paths1 ++ path :: paths2))
                 ++ [print (summary (final_stats (gather_loops_from_pdb w)
                                       (paths1 ++ path :: paths2)))])),
           (State (final_stats (gather_loops_from_pdb w) (paths1 ++ paths2))
              ([create_all output_path]
                 ++ concat (run <$> data_chunks (paths1 ++ paths2))
                 ++ [print (summary (final_stats (gather_loops_from_pdb w)
                                       (paths1 ++ paths2)))])).
    subst run.
    split; [by apply process_undisturbed|]. split.
    { apply process_undisturbed; [done| | |].
      - intros p e Hp. apply Honly. by apply Hsub.
      - intros Hp. destruct (Hdel Hp) as [Hpool Hsend].
        split; [done|]. intros results Hresults. apply Hsend.
        intros r' Hr'. destruct (Hresults r' Hr') as (p & Hin & Hret).
        exists p. split; [by apply Hsub|done].
      - unfold Failing.accepts in *. by rewrite <-Hg. }
    cbn [db_stats calls].
    destruct (views_undisturbed w (paths1 ++ path :: paths2) output_path
                verbose
                (summary (final_stats (gather_loops_from_pdb w)
                            (paths1 ++ path :: paths2))))
      as (_ & _ & _ & ->).
    destruct (views_undisturbed w (paths1 ++ paths2) output_path verbose
                (summary (final_stats (gather_loops_from_pdb w)
                            (paths1 ++ paths2))))
      as (_ & _ & _ & ->).
    unfold final_stats. rewrite Hg, Hr. simpl.
    rewrite !length_app. simpl. split_and!; [lia|done..].
Qed.

Lemma empty_file_counts_in_total_pdbs_only_witness :
  gather_loops_from_pdb (Worlds.quiet Sample.mixed Return) "empty.pdb"
    = Return []
  ∧ Failing.fault_tolerant_gather (Worlds.quiet Sample.mixed Return)
      "empty.pdb" = Return []
  ∧ ∃ s s',
      Failing.process_pdb_files (Worlds.quiet Sample.mixed Return)
        (["1abc.pdb"] ++ "empty.pdb" :: ["bad.pdb"]) "loops.db" 1 true
      = Returns s
      ∧ Failing.process_pdb_files (Worlds.quiet Sample.mixed Return)
          (["1abc.pdb"] ++ ["bad.pdb"]) "loops.db" 1 true = Returns s'
      ∧ total_pdbs (db_stats s) = total_pdbs (db_stats s') + 1
      ∧ succeeded (db_stats s) = succeeded (db_stats s')
      ∧ failed (db_stats s) = failed (db_stats s')
      ∧ total_loops (db_stats s) = total_loops (db_stats s')
      ∧ persisted (calls s) = persisted (calls s').
Proof.
  set (w := Worlds.quiet (row := nat) Sample.mixed Return).
  assert (gather_loops_from_pdb w "empty.pdb" = Return []) as Hempty
    by reflexivity.
  destruct (empty_file_counts_in_total_pdbs_only w "empty.pdb" Hempty)
    as (Hnone & _ & _ & _ & Hrun).
  split; [exact Hempty|]. split; [exact Hnone|].
  apply (Hrun ["1abc.pdb"] ["bad.pdb"] "loops.db" 1%Z true).
  - done.
  - intros path e _. unfold w. simpl. unfold Sample.mixed.
    repeat case_decide; try done. by intros [= <-].
  - intros Hp. lia.
  - apply Forall_forall. intros loop _. by exists loop.
Defined.

(** C10. The chunks a run maps are those of [data_chunks], cut by 100
    whatever the output path, the number of processes and the verbosity,
    and whatever the world: chunk [i] is the 100 paths from place [100 i]
    on, there are [(len(paths) + 99) // 100] of them, every chunk but the
    last has 100 paths, and the last has at most 100.  A run that returns
    has mapped them all, in their order; one that does not has mapped the
    first of them.  A run that nothing disturbs returns. *)
Theorem chunks_mapped_are_cut_by_100 {dict row exc : Type}
    (w : world dict row exc)
    (paths : list string) (output_path : string) (processes : Z)
    (verbose : bool) :
  let r := Failing.process_pdb_files w paths output_path processes verbose in
  mapped (calls (state_at r)) `prefix_of` Failing.cut paths
  ∧ (∀ s, r = Returns s → mapped (calls s) = Failing.cut paths)
  ∧ (data_chunks paths = Failing.cut paths
     ∧ length (Failing.cut paths) = (length paths + 99) / 100)
  ∧ (∀ i c, mapped (calls (state_at r)) !! i = Some c →
       c = take 100 (drop (i * 100) paths)
       ∧ 0 < length c ≤ 100
       ∧ i * 100 < length paths
       ∧ (S i < (length paths + 99) / 100 → length c = 100))
  ∧ (Failing.calm w → Failing.only_Exceptions w paths →
     Failing.delivers w processes paths → Failing.accepts w paths →
     ∃ s, r = Returns s ∧ mapped (calls s) = Failing.cut paths).
Proof.
  intros r.
  destruct (run_progress w paths output_path processes verbose)
    as (pre & p & c & d & Hpre & _ & _ & _ & Hmapped & _ & _ & _ & Hret).
  fold r in Hmapped, Hret. rewrite cut_data_chunks.
  assert (length (data_chunks paths) = (length paths + 99) / 100) as Hlen
    by (by rewrite data_chunks_chunks_of, length_chunks_of, range_length_ceil).
  split_and!.
  - by rewrite Hmapped.
  - intros s Hs. destruct (Hret s Hs) as (<- & _). by rewrite Hs in Hmapped.
  - done.
  - done.
  - intros i ch Hch. rewrite Hmapped in Hch.
    apply (prefix_lookup_Some _ _ _ _ Hch) in Hpre.
    rewrite data_chunks_chunks_of in Hpre.
    pose proof (chunk_length 100 paths i ch ltac:(lia) Hpre) as (Hle & Hfull).
    rewrite length_chunks_of, range_length_ceil in Hfull.
    rewrite lookup_chunks_of in Hpre. case_decide as Hi; [|done].
    simplify_eq. rewrite range_length_ceil in Hi.
    split_and!; [done|lia|lia| |done].
    pose proof (Nat.div_mod_eq (length paths + 99) 100).
    pose proof (Nat.mod_upper_bound (length paths + 99) 100). lia.
  - intros Hcalm Honly Hdel Hacc. eexists.
    split; [by apply process_undisturbed|]. cbn [calls].
    by destruct (views_undisturbed w paths output_path verbose
                   (summary (final_stats (gather_loops_from_pdb w) paths)))
      as (_ & -> & _).
Qed.

Lemma chunks_mapped_are_cut_by_100_witness :
  (∃ s, Failing.process_pdb_files (Worlds.quiet Sample.one_loop Return)
          Sample.paths_250 "loops.db" 4 true = Returns s
     ∧ mapped (calls s)
       = [take 100 Sample.paths_250; take 100 (drop 100 Sample.paths_250);
          drop 200 Sample.paths_250])
  ∧ mapped (calls (state_at
      (Failing.process_pdb_files
         (Worlds.quiet Sample.one_loop Cases.Loops_but_150)
         Sample.paths_250 "loops.db" 1 true)))
    = [take 100 Sample.paths_250; take 100 (drop 100 Sample.paths_250)]
  ∧ mapped (calls (state_at
      (Failing.process_pdb_files
         (Worlds.quiet Sample.one_loop Cases.Loops_but_150)
         Sample.paths_250 "loops.db" 1 true)))
    `prefix_of` Failing.cut Sample.paths_250.
Proof.
  set (w := Worlds.quiet (row := string) Sample.one_loop Return).
  split; [|split].
  - destruct (proj2 (proj2 (proj2 (proj2
                (chunks_mapped_are_cut_by_100 w Sample.paths_250 "loops.db"
                   4 true))))) as (s & Hrun & Hmapped).
    + done.
    + intros path e _. done.
    + intros _. split; reflexivity.
    + apply Forall_forall. intros loop _. by exists loop.
    + exists s. split; [exact Hrun|]. rewrite Hmapped. vm_compute. reflexivity.
  - vm_compute. reflexivity.
  - apply (chunks_mapped_are_cut_by_100
             (Worlds.quiet Sample.one_loop Cases.Loops_but_150)
             Sample.paths_250 "loops.db" 1 true).
Defined.

(** ** More about a run *)

(** X1. At the end of a run that returns, [total_loops] is the sum of
    [succeeded] and [failed] and [total_pdbs] is the number of paths,
    whatever the world.  A run that does not return ends with the sum or
    with one more, the loop the constructor or the session raised on, and
    with at most the number of paths in [total_pdbs]. *)
Theorem total_loops_is_succeeded_plus_failed_at_the_return
    {dict row exc : Type} (w : world dict row exc)
    (paths : list string) (output_path : string) (processes : Z)
    (verbose : bool) :
  let r := Failing.process_pdb_files w paths output_path processes verbose in
  (∀ s, r = Returns s →
     total_loops (db_stats s) = succeeded (db_stats s) + failed (db_stats s)
     ∧ total_pdbs (db_stats s) = length paths)
  ∧ (total_loops (db_stats (state_at r))
       = succeeded (db_stats (state_at r)) + failed (db_stats (state_at r))
     ∨ total_loops (db_stats (state_at r))
       = succeeded (db_stats (state_at r)) + failed (db_stats (state_at r))
         + 1)
  ∧ total_pdbs (db_stats (state_at r)) ≤ length paths.
Proof.
  intros r.
  destruct (run_progress w paths output_path processes verbose)
    as (pre & p & c & d & [rest Hpre] & Hp & _ & Hd & _ & Htotal & _ & Hloops
        & Hret).
  fold r in Htotal, Hloops, Hret.
  assert (concat (data_chunks paths) = paths) as Hcat
    by (rewrite data_chunks_chunks_of; apply concat_chunks_of; lia).
  split_and!.
  - intros s Hs. destruct (Hret s Hs) as (_ & -> & _ & ->).
    rewrite Hs in Htotal, Hloops. simpl in *. lia.
  - lia.
  - apply (f_equal length) in Hcat.
    rewrite Hpre, concat_app, length_app in Hcat. lia.
Qed.

Lemma total_loops_is_succeeded_plus_failed_at_the_return_witness :
  db_stats (state_at
    (Failing.process_pdb_files
       (Worlds.quiet Sample.one_loop Cases.Loops_but_150)
       Sample.paths_250 "loops.db" 1 true)) = Stats 200 150 0 151
  ∧ (151 = 150 + 0 ∨ 151 = 150 + 0 + 1).
Proof.
  assert (db_stats (state_at
            (Failing.process_pdb_files
               (Worlds.quiet Sample.one_loop Cases.Loops_but_150)
               Sample.paths_250 "loops.db" 1 true)) = Stats 200 150 0 151)
    as Hstats by (vm_compute; reflexivity).
  split; [exact Hstats|].
  pose proof (proj1 (proj2
    (total_loops_is_succeeded_plus_failed_at_the_return
       (Worlds.quiet Sample.one_loop Cases.Loops_but_150)
       Sample.paths_250 "loops.db" 1 true))) as H.
  cbv zeta in H. rewrite Hstats in H. exact H.
Defined.



(** X3. A run that returns has committed once for every chunk it mapped,
    [(len(paths) + 99) // 100] times, whatever the world.  A run that
    does not return has committed once for every chunk it mapped but,
    maybe, the last. *)
Theorem commits_follow_the_chunks_mapped {dict row exc : Type}
    (w : world dict row exc)
    (paths : list string) (output_path : string) (processes : Z)
    (verbose : bool) :
  let r := Failing.process_pdb_files w paths output_path processes verbose in
  (∀ s, r = Returns s →
     commits (calls s) = length (mapped (calls s))
     ∧ commits (calls s) = (length paths + 99) / 100)
  ∧ commits (calls (state_at r)) ≤ length (mapped (calls (state_at r)))
      ≤ commits (calls (state_at r)) + 1
  ∧ length (mapped (calls (state_at r))) ≤ (length paths + 99) / 100.
Proof.
  intros r.
  destruct (run_progress w paths output_path processes verbose)
    as (pre & p & c & d & Hpre & _ & Hc & _ & Hmapped & _ & Hcommits & _
        & Hret).
  fold r in Hmapped, Hcommits, Hret.
  assert (length (data_chunks paths) = (length paths + 99) / 100) as Hlen
    by (by rewrite data_chunks_chunks_of, length_chunks_of, range_length_ceil).
  apply prefix_length in Hpre.
  split_and!.
  - intros s Hs. destruct (Hret s Hs) as (-> & _ & -> & _).
    rewrite Hs in Hmapped, Hcommits. simpl in *.
    rewrite Hmapped, Hcommits. lia.
  - rewrite Hmapped, Hcommits. lia.
  - rewrite Hmapped, Hcommits. lia.
  - rewrite Hmapped. lia.
Qed.

Lemma commits_follow_the_chunks_mapped_witness :
  (commits (calls (state_at
     (Failing.process_pdb_files Worlds.second_commit_raises
        Sample.paths_250 "loops.db" 1 true))) = 1
   ∧ length (mapped (calls (state_at
       (Failing.process_pdb_files Worlds.second_commit_raises
          Sample.paths_250 "loops.db" 1 true)))) = 2)
  ∧ 1 ≤ 2 ≤ 1 + 1.
Proof.
  assert (commits (calls (state_at
            (Failing.process_pdb_files Worlds.second_commit_raises
               Sample.paths_250 "loops.db" 1 true))) = 1) as Hc
    by (vm_compute; reflexivity).
  assert (length (mapped (calls (state_at
            (Failing.process_pdb_files Worlds.second_commit_raises
               Sample.paths_250 "loops.db" 1 true)))) = 2) as Hm
    by (vm_compute; reflexivity).
  split; [by split|].
  pose proof (proj1 (proj2
    (commits_follow_the_chunks_mapped Worlds.second_commit_raises
       Sample.paths_250 "loops.db" 1 true))) as H.
  cbv zeta in H. rewrite Hc, Hm in H. exact H.
Defined.

(** X7. When every file that is gathered has exactly one loop, the
    summary counts files: at the end of a run that returns, whatever the
    world, [succeeded + failed] is [total_pdbs], the number of paths, and
    so is [total_loops].  A run that nothing disturbs returns. *)
Theorem one_loop_per_file_makes_the_summary_count_the_files
    {dict row exc : Type} (w : world dict row exc)
    (paths : list string) (output_path : string) (processes : Z)
    (verbose : bool)
    (Hone : ∀ path loops, path ∈ paths →
              gather_loops_from_pdb w path = Return loops →
              length loops = 1) :
  let r := Failing.process_pdb_files w paths output_path processes verbose in
  (∀ s, r = Returns s →
     succeeded (db_stats s) + failed (db_stats s) = total_pdbs (db_stats s)
     ∧ total_loops (db_stats s) = total_pdbs (db_stats s)
     ∧ total_pdbs (db_stats s) = length paths
     ∧ last (printed (calls s)) = Some (summary (db_stats s)))
  ∧ (Failing.calm w → Failing.only_Exceptions w paths →
     Failing.delivers w processes paths → Failing.accepts w paths →
     ∃ s, r = Returns s).
Proof.
  intros r. split.
  - intros s [_ ->]%process_Returns. cbn [db_stats calls].
    unfold final_stats. cbn [total_pdbs succeeded failed total_loops].
    rewrite (lengths_one_loop_per_file (gather_loops_from_pdb w) paths Hone).
    split_and!; [done..|].
    change ([create_all output_path] ++ ?cs)
      with (create_all (dict := row) output_path :: cs).
    rewrite app_comm_cons, printed_app.
    change (printed [print ?l]) with [l]. by rewrite last_snoc.
  - intros Hcalm Honly Hdel Hacc. eexists. by apply process_undisturbed.
Qed.

Lemma one_loop_per_file_makes_the_summary_count_the_files_witness :
  (∀ path loops, path ∈ ["1abc.pdb"; "bad.pdb"; "2xyz.pdb"] →
                 gather_loops_from_pdb Worlds.three_kinds path = Return loops →
                 length loops = 1)
  ∧ ∃ s, Failing.process_pdb_files Worlds.three_kinds
           ["1abc.pdb"; "bad.pdb"; "2xyz.pdb"] "loops.db" 1 true = Returns s
      ∧ succeeded (db_stats s) + failed (db_stats s) = total_pdbs (db_stats s)
      ∧ total_loops (db_stats s) = total_pdbs (db_stats s).
Proof.
  assert (∀ path loops, path ∈ ["1abc.pdb"; "bad.pdb"; "2xyz.pdb"] →
            gather_loops_from_pdb Worlds.three_kinds path = Return loops →
            length loops = 1) as Hone.
  { intros path loops _. simpl. unfold Worlds.one_or_raise.
    repeat case_decide; try done. by intros [= <-]. }
  split; [exact Hone|].
  eexists. split; [vm_compute; reflexivity|].
  destruct (proj1 (one_loop_per_file_makes_the_summary_count_the_files
                     Worlds.three_kinds ["1abc.pdb"; "bad.pdb"; "2xyz.pdb"]
                     "loops.db" 1 true Hone) _ eq_refl)
    as (Hsum & Hloops & _).
  split; [exact Hsum|exact Hloops].
Defined.

(** X8. Cut after a multiple of 100 paths, a list is chunked part by
    part: the chunks of the whole are the chunks of the first part and
    then those of the second. *)
Theorem data_chunks_of_parts (paths1 paths2 : list string) (k : nat)
    (Hfull : length paths1 = k * 100) :
  data_chunks (paths1 ++ paths2) = data_chunks paths1 ++ data_chunks paths2.
Proof.
  rewrite (data_chunks_chunks_of paths1), (data_chunks_chunks_of paths2),
    (data_chunks_chunks_of (paths1 ++ paths2)).
  apply list_eq. intros i.
  rewrite lookup_app, !lookup_chunks_of, !length_chunks_of, length_app,
    !range_length_ceil.
  pose proof (Nat.div_mod_eq (length paths1 + 99) 100).
  pose proof (Nat.mod_upper_bound (length paths1 + 99) 100).
  pose proof (Nat.div_mod_eq (length paths2 + 99) 100).
  pose proof (Nat.mod_upper_bound (length paths2 + 99) 100).
  pose proof (Nat.div_mod_eq (length paths1 + length paths2 + 99) 100).
  pose proof (Nat.mod_upper_bound (length paths1 + length paths2 + 99) 100).
  assert ((length paths1 + 99) / 100 = k) as Hk by lia.
  rewrite Hk in *.
  destruct (decide (i < k)) as [Hi|Hi].
  - rewrite decide_True by lia. f_equal.
    rewrite drop_app_le by lia. rewrite take_app_le; [done|].
    rewrite length_drop. lia.
  - case_decide; case_decide; try lia; [|done]. f_equal.
    rewrite drop_app_ge by lia. do 2 f_equal. lia.
Qed.

Lemma data_chunks_of_parts_witness :
  length (take 200 Sample.paths_250) = 2 * 100
  ∧ data_chunks (take 200 Sample.paths_250 ++ drop 200 Sample.paths_250)
    = data_chunks (take 200 Sample.paths_250)
      ++ data_chunks (drop 200 Sample.paths_250).
Proof.
  assert (length (take 200 Sample.paths_250) = 2 * 100) as Hfull
    by reflexivity.
  split; [exact Hfull|].
  exact (data_chunks_of_parts (take 200 Sample.paths_250)
           (drop 200 Sample.paths_250) 2 Hfull).
Defined.

(** X9. The summary line tells the four counters: two statistics with the
    same summary are the same. *)
Theorem summary_tells_the_statistics (d d' : stats)
    (Hsame : summary d = summary d') :
  d = d'.
Proof.
  destruct d as [a b c e], d' as [a' b' c' e']. unfold summary in Hsame.
  cbn [total_pdbs succeeded failed total_loops] in Hsame.
  apply (inj (String.append _)) in Hsame.
  apply digits_then_other in Hsame as [Ha Hsame];
    [|apply digits_pretty..|done].
  apply (inj (String.append "PDB files:")) in Hsame.
  apply (inj (String.append nl)) in Hsame.
  apply digits_then_other in Hsame as [Hb Hsame];
    [|apply digits_pretty..|done].
  apply (inj (String.append "succeeded, ")) in Hsame.
  apply digits_then_other in Hsame as [Hc Hsame];
    [|apply digits_pretty..|done].
  apply (inj (String.append "failed, ")) in Hsame.
  apply digits_then_other in Hsame as [He _];
    [|apply digits_pretty..|done].
  apply (inj pretty) in Ha, Hb, Hc, He. by subst.
Qed.

Lemma summary_tells_the_statistics_witness :
  summary (Stats 250 248 2 250) = summary (Stats (150 + 100) 248 2 250)
  ∧ Stats 250 248 2 250 = Stats (150 + 100) 248 2 250.
Proof.
  assert (summary (Stats 250 248 2 250) = summary (Stats (150 + 100) 248 2 250))
    as Hsame by reflexivity.
  split; [exact Hsame|].
  exact (summary_tells_the_statistics _ _ Hsame).
Defined.

(** X10. [repr] of a row never gives its text: on every row the
    constructor returns, [__repr__] raises the [AttributeError] for [pdb],
    the class having [pdb_code] and no [pdb]; the two other attributes it
    reads, [loop_type] and [sequence], are columns and can be read. *)
Theorem repr_of_a_row_raises {value : Type} (inherited : list string)
    (format : attribute value → string)
    (kwargs : list (string * value)) (self : gmap string value)
    (Hpdb : "pdb" ∉ inherited)
    (Hnew : Loops.new inherited kwargs = Return self) :
  Loops.__repr__ inherited format self = Raise "pdb"
  ∧ (∃ a, Loops.getattr inherited self "loop_type" = Return a)
  ∧ (∃ a, Loops.getattr inherited self "sequence" = Return a).
Proof.
  assert (Loops.hasattr inherited "pdb" = false) as Hno.
  { apply bool_decide_eq_false_2.
    rewrite !not_elem_of_cons, not_elem_of_app.
    split_and!; [done|done|apply pdb_is_no_column|done]. }
  assert (self !! "pdb" = None) as Hunset.
  { apply eq_None_not_Some. intros Hset.
    apply (init_sets_attributes inherited kwargs ∅ self Hnew) in Hset.
    - congruence.
    - intros k. rewrite lookup_empty. by intros [??]. }
  split_and!.
  - unfold Loops.__repr__, Loops.getattr. rewrite Hunset, Hno.
    by rewrite bool_decide_eq_false_2 by apply pdb_is_no_column.
  - apply getattr_column. apply (bool_decide_unpack _). by vm_compute.
  - apply getattr_column. apply (bool_decide_unpack _). by vm_compute.
Qed.

Lemma repr_of_a_row_raises_witness :
  ("pdb" ∉ Cases.inherited)
  ∧ Loops.new Cases.inherited Cases.loop_1abc = Return Cases.row_1abc
  ∧ Loops.__repr__ Cases.inherited Cases.format Cases.row_1abc = Raise "pdb"
  ∧ (∃ a, Loops.getattr Cases.inherited Cases.row_1abc "loop_type" = Return a)
  ∧ (∃ a, Loops.getattr Cases.inherited Cases.row_1abc "sequence" = Return a).
Proof.
  assert ("pdb" ∉ Cases.inherited) as Hpdb
    by (apply (bool_decide_unpack _); by vm_compute).
  assert (Loops.new Cases.inherited Cases.loop_1abc = Return Cases.row_1abc)
    as Hnew by reflexivity.
  split; [exact Hpdb|]. split; [exact Hnew|].
  exact (repr_of_a_row_raises Cases.inherited Cases.format Cases.loop_1abc
           Cases.row_1abc Hpdb Hnew).
Defined.





(** X14. A file on which [gather_loops_from_pdb] raises what is no
    [Exception] ends the run.  [fault_tolerant_gather] raises it.  With
    one process the turn of the loop for its chunk is left with what is no
    [Exception], after the paths of the chunk were counted in
    [total_pdbs].  With more, the worker that has the file ends and
    nothing arrives of its task: whatever the order of the workers,
    [pool.map] never returns, and the paths of the chunk are not counted.
    No run over paths with the file among them returns. *)
Theorem file_that_raises_no_Exception_ends_the_run {dict row exc : Type}
    (w : world dict row exc) (path : string) (e : exc)
    (Hraise : gather_loops_from_pdb w path = Raise e)
    (He : is_Exception w e = false) :
  Failing.fault_tolerant_gather w path = Raise e
  ∧ (∀ chunk, path ∈ chunk →
       (∀ pick processes, Failing.pool_map w pick processes chunk = Never)
       ∧ (∃ e', Failing.mapstar (Failing.fault_tolerant_gather w) chunk
                = Raise e'
                ∧ is_Exception w e' = false)
       ∧ ∀ processes verbose k (s : state row),
           let r := Failing.chunk_body w processes verbose k s chunk in
           ((1 < processes)%Z → new_pool w processes = None →
            r = Hangs (State (db_stats s) (calls s ++ [map_gather chunk])))
           ∧ (¬ (1 < processes)%Z →
              ∃ e', r = Raises
                      (State (add_total_pdbs (length chunk) (db_stats s))
                         (calls s ++ [map_gather chunk])) e'
                    ∧ is_Exception w e' = false)
           ∧ ∀ s', r ≠ Returns s')
  ∧ (∀ paths output_path processes verbose s,
       path ∈ paths →
       Failing.process_pdb_files w paths output_path processes verbose
       ≠ Returns s).
Proof.
  assert (∀ chunk processes verbose k (s s' : state row), path ∈ chunk →
            Failing.chunk_body w processes verbose k s chunk ≠ Returns s')
    as Hnot.
  { intros chunk processes verbose k s s' Hin. unfold Failing.chunk_body.
    case_decide.
    - destruct (new_pool w processes); [done|].
      by rewrite (pool_map_lost w _ _ chunk path e).
    - by destruct (mapstar_ftg_not_Exception w chunk path e Hin Hraise He)
        as (e' & -> & _). }
  split_and!.
  - unfold Failing.fault_tolerant_gather. by rewrite Hraise, He.
  - intros chunk Hin. split_and!.
    + intros pick processes. by apply (pool_map_lost w _ _ chunk path e).
    + by apply (mapstar_ftg_not_Exception w chunk path e).
    + intros processes verbose k s r. split_and!.
      * intros Hp Hpool. unfold r, Failing.chunk_body.
        rewrite decide_True, Hpool by done.
        by rewrite (pool_map_lost w _ _ chunk path e).
      * intros Hp. unfold r, Failing.chunk_body. rewrite decide_False by done.
        destruct (mapstar_ftg_not_Exception w chunk path e Hin Hraise He)
          as (e' & -> & He').
        by exists e'.
      * intros s'. by apply Hnot.
  - intros paths output_path processes verbose s Hin Hrun.
    unfold Failing.process_pdb_files in Hrun.
    destruct (Failing.call_ w (create_all output_path) _) as [s0|s0 e0|s0];
      [|done..].
    cbn [and_then] in Hrun.
    destruct (Failing.for_chunks w processes verbose 0 s0 (data_chunks paths))
      as [s1|s1 e1|s1] eqn:Hchunks; [|done..].
    assert (∃ chunk, chunk ∈ data_chunks paths ∧ path ∈ chunk)
      as (chunk & Hchunk & Hin').
    { apply list_elem_of_lookup in Hin as [k Hk].
      pose proof (lookup_lt_Some _ _ _ Hk) as Hlt.
      destruct (chunk_covers 100 paths k ltac:(lia) Hlt)
        as (c & Hc & _ & Hpath).
      exists c. rewrite data_chunks_chunks_of. split.
      - by eapply list_elem_of_lookup_2.
      - rewrite Hk in Hpath. by eapply list_elem_of_lookup_2. }
    destruct (for_chunks_Returns_each w _ _ _ _ _ _ Hchunks chunk Hchunk)
      as (k1 & s2 & s3 & Hbody).
    by apply Hnot in Hbody.
Qed.

Lemma file_that_raises_no_Exception_ends_the_run_witness :
  gather_loops_from_pdb Worlds.three_kinds "stop.pdb"
    = Raise "KeyboardInterrupt"
  ∧ is_Exception Worlds.three_kinds "KeyboardInterrupt" = false
  ∧ Failing.pool_map Worlds.three_kinds (Sample.scrambled 0) 4
      ["1abc.pdb"; "stop.pdb"; "2xyz.pdb"] = Never
  ∧ Failing.process_pdb_files Worlds.three_kinds
      ["1abc.pdb"; "stop.pdb"; "2xyz.pdb"] "loops.db" 4 true
    = Hangs (State (Stats 0 0 0 0)
        [create_all "loops.db";
         map_gather ["1abc.pdb"; "stop.pdb"; "2xyz.pdb"]]).
Proof.
  assert (gather_loops_from_pdb Worlds.three_kinds "stop.pdb"
          = Raise "KeyboardInterrupt") as Hraise by reflexivity.
  assert (is_Exception Worlds.three_kinds "KeyboardInterrupt" = false) as He
    by reflexivity.
  split; [exact Hraise|]. split; [exact He|]. split.
  - apply (proj1 (proj1 (proj2
      (file_that_raises_no_Exception_ends_the_run Worlds.three_kinds
         "stop.pdb" "KeyboardInterrupt" Hraise He))
      ["1abc.pdb"; "stop.pdb"; "2xyz.pdb"]
      ltac:(apply elem_of_cons; right; by left))).
  - vm_compute. reflexivity.
Defined.
